(** * SolarAxionFlux: the spectral-flux integration engine

    A shallow embedding of [src/spectral_flux.cpp]: the integrand library,
    the volume and solar-disc integrators, the windowed-flux integrators and
    the constructor of [AxionMCGenerator].

    Numbers.  A C++ [double] is a real number of [R] and its arithmetic is
    exact: rounding, infinities and NaN are outside the model, so a
    statement below says nothing of a quotient by zero or of the square root
    of a negative number, where the code yields a value that is not finite.
    An [int] is an integer of [Z] between [INT_MIN] and [INT_MAX]; the
    conversion [int(x)] of a double truncates toward zero and is undefined
    when the truncated value is not an [int].  A [std::vector<double>] is a
    [list R], read and written by index with stdpp's lookup and insert; an
    access out of range is undefined behaviour and is a failure of the
    model.  The number of grid points of the Monte-Carlo generator hangs on
    the rounding of a quotient: lines 305-307 are therefore also embedded on
    binary64 doubles (Rocq's primitive floats, every operation rounded to
    nearest even as IEEE 754 has it), where the claim on the grid is
    settled.

    External code.  The GSL quadrature routines are one abstract function
    from a reified call (routine, integrand, bounds, tolerances) to the pair
    of estimate and error estimate.  The solar model, the one-dimensional
    interpolator and the constants of [constants.hpp] are records whose
    fields the functions below only read.  Writing a table to disk
    ([save_to_file]) has no effect on a returned value and is left out. *)

From Stdlib Require Import QArith Qround Qpower Floats Uint63.
From Stdlib Require Import Reals Lra Lia ZArith String List Sorted.
From stdpp Require Import base list strings.

Open Scope R_scope.

(** * Data model *)

(** The opacity data set a solar model was built from. *)
Inductive opacitycode : Type := OP | OPAS | LEDCOP | ATOMIC.

Definition opacitycode_eqb (a b : opacitycode) : bool :=
  match a, b with
  | OP, OP | OPAS, OPAS | LEDCOP, LEDCOP | ATOMIC, ATOMIC => true
  | _, _ => false
  end.

(** [SolarModel]: the rate accessors and fields the integration code reads.
    [Gamma_P_opacity_element] is the three-argument overload of
    [Gamma_P_opacity] that takes an element name. *)
Record SolarModel : Type := {
  r_lo : R;
  r_hi : R;
  opcode : opacitycode;
  temperature_in_keV : R -> R;
  Gamma_P_Primakoff : R -> R -> R;
  Gamma_P_Compton : R -> R -> R;
  Gamma_P_opacity_element : R -> R -> string -> R;
  Gamma_P_opacity : R -> R -> R;
  Gamma_P_ff : R -> R -> R;
  Gamma_P_ee : R -> R -> R;
  Gamma_P_all_electron : R -> R -> R
}.

Record Isotope : Type := { name : string }.

(** [struct integration_params { erg, sol, isotope }]. *)
Record integration_params : Type := {
  ip_erg : R;
  ip_sol : SolarModel;
  ip_isotope : Isotope
}.

(** [struct integration_params2 { sol, integrand, isotope }]. *)
Record integration_params2 : Type := {
  ip2_sol : SolarModel;
  ip2_integrand : R -> integration_params -> R;
  ip2_isotope : Isotope
}.

(** [struct solar_disc_integration_params { erg, rad, r_max, s, integrand, w1 }];
    the member-function pointer [integrand] selects an accessor of the model,
    the scratch workspace [w1] carries no value. *)
Record solar_disc_integration_params : Type := {
  sd_erg : R;
  sd_rad : R;
  sd_r_max : R;
  sd_s : SolarModel;
  sd_integrand : SolarModel -> R -> R -> R
}.

Definition set_rad (rad : R) (p : solar_disc_integration_params) :
  solar_disc_integration_params :=
  {| sd_erg := sd_erg p; sd_rad := rad; sd_r_max := sd_r_max p;
     sd_s := sd_s p; sd_integrand := sd_integrand p |}.

Definition set_erg (erg : R) (p : solar_disc_integration_params) :
  solar_disc_integration_params :=
  {| sd_erg := erg; sd_rad := sd_rad p; sd_r_max := sd_r_max p;
     sd_s := sd_s p; sd_integrand := sd_integrand p |}.

(** The one-dimensional interpolator read back from a table file. *)
Record OneDInterpolator : Type := {
  interpolate : R -> R;
  lower : R;
  upper : R
}.

(** Modelled from the spec: [constants.hpp] is not among the sources.  The
    physical constants, the quadrature tolerances and budgets and the table
    of opacity element names are the fields of this record. *)
Record Constants : Type := {
  radius_sol : R;
  keV2cm : R;
  distance_sol : R;
  hbar : R;
  int_abs_prec : R;
  int_rel_prec : R;
  abs_prec2 : R;
  rel_prec2 : R;
  int_space_size : Z;
  int_space_size_cquad : Z;
  int_method_1 : Z;
  int_method_2 : Z;
  op_element_names : list string
}.

(** Modelled from the spec: [num_op_elements] of [constants.hpp] is the
    number of tabulated opacity elements. *)
Definition num_op_elements (K : Constants) : nat := length (op_element_names K).

(** Modelled from the spec: [pi] of [constants.hpp] is the circle constant. *)
Definition pi : R := PI.

(** * Library functions *)

Definition gsl_pow_2 (x : R) : R := x * x.

(** GSL documents [gsl_expm1 (x)] as the quantity exp(x) - 1. *)
Definition gsl_expm1 (x : R) : R := exp x - 1.

#[global] Instance Rlt_decision (x y : R) : Decision (x < y) := Rlt_dec x y.
#[global] Instance Rgt_decision (x y : R) : Decision (x > y) := Rgt_dec x y.
#[global] Instance Rle_decision (x y : R) : Decision (x <= y) := Rle_dec x y.
#[global] Instance Req_decision : EqDecision R := Req_dec_T.

(** [std::min (a, b)] is [(b < a) ? b : a]. *)
Definition std_min (a b : R) : R := if decide (b < a) then b else a.

(** A call of a GSL quadrature routine: [gsl_integration_qag] with its
    integrand, bounds, tolerances, subdivision budget and rule key;
    [gsl_integration_qagp] with the break points in place of the bounds;
    [gsl_integration_cquad]. *)
Inductive gsl_call : Type :=
| gsl_integration_qag (f : R -> R) (a b epsabs epsrel : R) (limit key : Z)
| gsl_integration_qagp (f : R -> R) (pts : list R) (epsabs epsrel : R) (limit : Z)
| gsl_integration_cquad (f : R -> R) (a b epsabs epsrel : R).

(** The upper end of the domain a call integrates over. *)
Definition upper_bound (c : gsl_call) : option R :=
  match c with
  | gsl_integration_qag _ _ b _ _ _ _ => Some b
  | gsl_integration_qagp _ pts _ _ _ => last pts
  | gsl_integration_cquad _ _ b _ _ => Some b
  end.

(** The quadrature library: estimate and error estimate of a call. *)
Definition GSL : Type := gsl_call -> R * R.

(** How a run of the code can fail: the program is terminated with a
    range error, a [std::vector] is asked for a negative size, or the
    behaviour is undefined (index out of range, [int] conversion out of
    range). *)
Inductive failure : Type :=
| RangeError (msg : string)
| LengthError
| UndefinedBehaviour.

Inductive result (A : Type) : Type :=
| Ok (a : A)
| Fail (e : failure).
Arguments Ok {A} a.
Arguments Fail {A} e.

Definition bind {A B : Type} (m : result A) (k : A -> result B) : result B :=
  match m with
  | Ok a => k a
  | Fail e => Fail e
  end.

Notation "'let*' x ':=' m 'in' k" := (bind m (fun x => k))
  (at level 10, x name, m at level 200, k at level 200).

(** * The integrand library *)

Section Integrands.

Variable K : Constants.

Definition integrand_Primakoff (r : R) (p : integration_params) : R :=
  let erg := ip_erg p in
  let sol := ip_sol p in
  0.5 * gsl_pow_2 (r * erg / pi) * Gamma_P_Primakoff sol erg r.

Definition integrand_Compton (r : R) (p : integration_params) : R :=
  let erg := ip_erg p in
  let sol := ip_sol p in
  0.5 * gsl_pow_2 (r * erg / pi) * Gamma_P_Compton sol erg r.

Definition integrand_weightedCompton (r : R) (p : integration_params) : R :=
  let erg := ip_erg p in
  if decide (erg = 0) then 0 else
  let sol := ip_sol p in
  let u := erg / temperature_in_keV sol r in
  0.5 * gsl_pow_2 (r * erg / pi) * 0.5 * (1.0 - 1.0 / gsl_expm1 u)
    * Gamma_P_Compton sol erg r.

Definition integrand_opacity_element (r : R) (p : integration_params) : R :=
  let erg := ip_erg p in
  let el_name := name (ip_isotope p) in
  let sol := ip_sol p in
  0.5 * gsl_pow_2 (r * erg / pi) * Gamma_P_opacity_element sol erg r el_name.

(** The loop [for (int k = 2; k < num_op_elements; k++)] of
    [integrand_opacity]: [fuel] iterations from index [k], adding to
    [element_contrib] the rate of the element named [op_element_names[k]]. *)
Fixpoint opacity_loop (sol : SolarModel) (erg r : R) (fuel k : nat)
    (element_contrib : R) : R :=
  match fuel with
  | O => element_contrib
  | S fuel' =>
      opacity_loop sol erg r fuel' (S k)
        (element_contrib
         + Gamma_P_opacity_element sol erg r (op_element_names K !!! k))
  end.

Definition integrand_opacity (r : R) (p : integration_params) : R :=
  let result := 0.0 in
  let erg := ip_erg p in
  let sol := ip_sol p in
  let result :=
    if opacitycode_eqb (opcode sol) OP then
      let element_contrib :=
        opacity_loop sol erg r (num_op_elements K - 2) 2 0.0 in
      0.5 * gsl_pow_2 (r * erg / pi) * element_contrib
    else result in
  let result :=
    if opacitycode_eqb (opcode sol) OPAS
       || opacitycode_eqb (opcode sol) LEDCOP
       || opacitycode_eqb (opcode sol) ATOMIC
    then 0.5 * gsl_pow_2 (r * erg / pi) * Gamma_P_opacity sol erg r
    else result in
  result.

Definition integrand_all_ff (r : R) (p : integration_params) : R :=
  let erg := ip_erg p in
  let sol := ip_sol p in
  0.5 * gsl_pow_2 (r * erg / pi) * (Gamma_P_ff sol erg r + Gamma_P_ee sol erg r).

Definition integrand_all_axionelectron (r : R) (p : integration_params) : R :=
  let erg := ip_erg p in
  let sol := ip_sol p in
  0.5 * gsl_pow_2 (r * erg / pi) * Gamma_P_all_electron sol erg r.

End Integrands.

(** * The integrators *)

Section Integrators.

Variable K : Constants.
Variable gsl : GSL.

(** The constant [factor] of the three integrators:
    Rsol^3 [keV^-3] / (d^2 [cm^2] * hbar [keV s]). *)
Definition factor : R :=
  (radius_sol K / (1.0e-2 * keV2cm K)) ^ 3
  / ((1.0e2 * distance_sol K) ^ 2 * (1.0e6 * hbar K)).

(** ** Volume integrator *)

Definition calculate_spectral_flux (ergs : list R) (isotope : Isotope)
    (s : SolarModel) (integrand : R -> integration_params -> R) : list R :=
  (fun erg =>
     let p := {| ip_erg := erg; ip_sol := s; ip_isotope := isotope |} in
     let integral :=
       fst (gsl (gsl_integration_qag (fun r => integrand r p) (r_lo s) (r_hi s)
                   (int_abs_prec K) (int_rel_prec K)
                   (int_space_size K) (int_method_1 K))) in
     factor * integral) <$> ergs.

(** ** Solar-disc integrator *)

Definition rho_integrand (rho : R) (p1 : solar_disc_integration_params) : R :=
  let erg := sd_erg p1 in
  let rad := sd_rad p1 in
  let s := sd_s p1 in
  let norm_factor1 := 1.0 in
  let cylinder := rho * rho - rad * rad in
  let cylinder := rho / sqrt cylinder in
  cylinder * gsl_pow_2 (0.5 * erg / pi) * sd_integrand p1 s erg rho
  / norm_factor1.

(** The quadrature call made by [rad_integrand], after it has stored [rad]
    in the shared parameter bundle. *)
Definition rad_integrand_call (rad : R) (p2 : solar_disc_integration_params) :
    gsl_call :=
  let p2 := set_rad rad p2 in
  let s := sd_s p2 in
  let r_max := std_min (sd_r_max p2) (r_hi s) in
  gsl_integration_cquad (fun rho => rho_integrand rho p2) rad r_max
    (0.1 * int_abs_prec K) (0.1 * int_rel_prec K).

Definition rad_integrand (rad : R) (p2 : solar_disc_integration_params) : R :=
  let result := fst (gsl (rad_integrand_call rad p2)) in
  let result := rad * result in
  result.

(** The parameter bundle [p2] that [calculate_spectral_flux_solar_disc]
    builds once and whose [erg] field it overwrites for every energy. *)
Definition solar_disc_params (erg r_max : R) (s : SolarModel)
    (integrand : SolarModel -> R -> R -> R) : solar_disc_integration_params :=
  let r_max := std_min r_max (r_hi s) in
  set_erg erg
    {| sd_erg := 0.0; sd_rad := 0.0; sd_r_max := r_max; sd_s := s;
       sd_integrand := integrand |}.

(** The outer quadrature call of the disc integrator for one energy. *)
Definition solar_disc_call (erg r_max : R) (s : SolarModel)
    (integrand : SolarModel -> R -> R -> R) : gsl_call :=
  let p2 := solar_disc_params erg r_max s integrand in
  let r_min := r_lo s in
  let r_max := std_min r_max (r_hi s) in
  gsl_integration_qag (fun rad => rad_integrand rad p2) r_min r_max
    (int_abs_prec K) (int_rel_prec K) (int_space_size K) (int_method_1 K).

Definition calculate_spectral_flux_solar_disc (ergs : list R)
    (isotope : Isotope) (r_max : R) (s : SolarModel)
    (integrand : SolarModel -> R -> R -> R) : list R :=
  let norm_factor1 := 1.0 in
  (fun erg =>
     let integral := fst (gsl (solar_disc_call erg r_max s integrand)) in
     factor * norm_factor1 * integral) <$> ergs.

(** The overload without an isotope. *)
Definition calculate_spectral_flux_solar_disc' (ergs : list R) (r_max : R)
    (s : SolarModel) (integrand : SolarModel -> R -> R -> R) : list R :=
  let NONE := {| name := EmptyString |} in
  calculate_spectral_flux_solar_disc ergs NONE r_max s integrand.

(** ** Windowed-flux integrators *)

Definition spectral_flux_integrand (erg : R) (p2 : integration_params2) : R :=
  let isotope := ip2_isotope p2 in
  let s := ip2_sol p2 in
  let normfactor := 1.0 in
  let p := {| ip_erg := erg; ip_sol := s; ip_isotope := isotope |} in
  let result :=
    fst (gsl (gsl_integration_qag (fun r => ip2_integrand p2 r p)
                (r_lo s) (r_hi s) (int_abs_prec K) (int_rel_prec K)
                (int_space_size K) (int_method_1 K))) in
  factor * result / normfactor.

(** The quadrature call of [calculate_flux]. *)
Definition calculate_flux_call (lowerlimit upperlimit : R) (s : SolarModel)
    (isotope : Isotope) : gsl_call :=
  let p2 := {| ip2_sol := s; ip2_integrand := integrand_all_axionelectron;
               ip2_isotope := isotope |} in
  gsl_integration_qag (fun erg => spectral_flux_integrand erg p2)
    lowerlimit upperlimit (abs_prec2 K) (rel_prec2 K) 100000000 (int_method_2 K).

Definition calculate_flux (lowerlimit upperlimit : R) (s : SolarModel)
    (isotope : Isotope) : R :=
  let normfactor := 1.0e20 in
  let result := fst (gsl (calculate_flux_call lowerlimit upperlimit s isotope)) in
  result * normfactor.

Definition flux_from_file_integrand (erg : R) (interp : OneDInterpolator) : R :=
  interpolate interp erg.

(** Peak positions for axion-electron interactions. *)
Definition all_peaks : list R :=
  [0.653029; 0.779074; 0.920547; 0.956836; 1.02042; 1.05343; 1.3497; 1.40807;
   1.46949; 1.59487; 1.62314; 1.65075; 1.72461; 1.76286; 1.86037; 2.00007;
   2.45281; 2.61233; 3.12669; 3.30616; 3.88237; 4.08163; 5.64394; 5.76064;
   6.14217; 6.19863; 6.58874; 6.63942; 6.66482; 7.68441; 7.74104; 7.76785].

(** The vector [relevant_peaks]: [erg_min] is pushed, then every peak
    strictly inside the window in the order of [all_peaks], then [erg_max]. *)
Definition relevant_peaks (erg_min erg_max : R) : list R :=
  let relevant_peaks := [erg_min] in
  let relevant_peaks :=
    foldl (fun acc peak_erg =>
             if bool_decide (erg_min < peak_erg) && bool_decide (peak_erg < erg_max)
             then acc ++ [peak_erg] else acc)
          relevant_peaks all_peaks in
  relevant_peaks ++ [erg_max].

(** Modelled from the spec: [terminate_with_error] is not among the sources.
    It reports the message and terminates the operation; the spec names the
    error of [integrated_flux_from_file] a [RangeError]. *)
Definition terminate_with_error {A : Type} (msg : string) : result A :=
  Fail (RangeError msg).

(** The constructor of [OneDInterpolator] from the name of a table file. *)
Variable OneDInterpolator_ctor : string -> OneDInterpolator.

(** [integrated_flux_from_file] returns the quadrature calls it made, in
    order, and its outcome. *)
Definition integrated_flux_from_file (erg_min erg_max : R)
    (spectral_flux_file : string) (includes_electron_interactions : bool) :
    list gsl_call * result R :=
  let spectral_flux := OneDInterpolator_ctor spectral_flux_file in
  if bool_decide (erg_min < lower spectral_flux)
     || bool_decide (erg_max > upper spectral_flux)
  then
    ([], terminate_with_error
           ("ERROR! The integration boundaries given to 'integrated_flux_from_file' are incompatible with the min/max available energy in the file "
            +:+ spectral_flux_file +:+ "."))
  else
    let f := fun erg => flux_from_file_integrand erg spectral_flux in
    let call :=
      if includes_electron_interactions then
        gsl_integration_qagp f (relevant_peaks erg_min erg_max)
          (abs_prec2 K) (rel_prec2 K) (int_space_size K)
      else
        gsl_integration_qag f erg_min erg_max (abs_prec2 K) (rel_prec2 K)
          (int_space_size K) (int_method_1 K) in
    let result := fst (gsl call) in
    ([call], Ok result).

(** ** The Monte-Carlo generator *)

Definition INT_MIN : Z := -2147483648.
Definition INT_MAX : Z := 2147483647.

(** [int(x)]: truncation toward zero, undefined outside the range of [int]. *)
Definition trunc (x : R) : Z := if decide (0 <= x) then Zfloor x else Zceil x.

Definition double_to_int (x : R) : result Z :=
  let z := trunc x in
  if bool_decide (INT_MIN <= z)%Z && bool_decide (z <= INT_MAX)%Z
  then Ok z else Fail UndefinedBehaviour.

(** [std::vector<double> (n)]: [n] zeros; a negative [int] becomes a size
    beyond [max_size ()] and the constructor throws. *)
Definition vector_of_size (n : Z) : result (list R) :=
  if bool_decide (n < 0)%Z then Fail LengthError
  else Ok (replicate (Z.to_nat n) 0).

(** [for (int i = i0; i < i0 + fuel; ++i) v[i] = f (i, v[i])], for a vector
    with at least [i0 + fuel] entries. *)
Fixpoint for_each_index {A : Type} (f : nat -> A -> A) (fuel i : nat)
    (v : list A) : list A :=
  match fuel with
  | O => v
  | S fuel' =>
      for_each_index f fuel' (S i) (alter (f i) i v)
  end.

(** The trapezoid loop of the constructor,
    [for (int i = 1; i < n_omega_vals; ++i)], run on the vector in place:
    it reads [inv_cdf_data_x[i]] and [inv_cdf_data_x[i-1]] as they are then
    and writes the running [norm] to [inv_cdf_data_x[i]]. *)
Fixpoint trapezoid_loop (omega_delta : R) (fuel i : nat) (norm : R)
    (inv_cdf_data_x : list R) : result (R * list R) :=
  match fuel with
  | O => Ok (norm, inv_cdf_data_x)
  | S fuel' =>
      match inv_cdf_data_x !! i, inv_cdf_data_x !! (i - 1)%nat with
      | Some x_i, Some x_im1 =>
          let norm := norm + 0.5 * omega_delta * (x_i + x_im1) in
          trapezoid_loop omega_delta fuel' (S i) norm (<[i := norm]> inv_cdf_data_x)
      | _, _ => Fail UndefinedBehaviour
      end
  end.

(** The data members the constructor fills. *)
Record AxionMCGenerator : Type := {
  inv_cdf_data_erg : list R;
  inv_cdf_data_x : list R;
  integrated_norm : R
}.

(** Modelled from the spec: [init_inv_cdf_interpolator], the last statement
    of the constructor (line 327), is not among the sources.  It reads the
    data members and builds the interpolator of the inverse cumulative
    table from them; it returns or it fails. *)
Variable init_inv_cdf_interpolator : AxionMCGenerator -> result unit.

(** Lines 305-307, the number of grid points and the energy grid, over
    exact arithmetic as the rest of the constructor; where the rounding of
    the quotient and of the grid points matters, the same lines on doubles
    are [energy_grid_b64] below. *)
Definition energy_grid (omega_min omega_max omega_delta : R) :
    result (Z * list R) :=
  let* n_omega_vals := double_to_int ((omega_max - omega_min) / omega_delta) in
  let* inv_cdf_data_erg := vector_of_size n_omega_vals in
  let inv_cdf_data_erg :=
    for_each_index (fun i _ => omega_min + INR i * omega_delta)
      (Z.to_nat n_omega_vals) 0 inv_cdf_data_erg in
  Ok (n_omega_vals, inv_cdf_data_erg).

(** *** Lines 305-307 on binary64 doubles *)

(** The exact value of a double that is finite. *)
Definition double_value (x : float) : option Q :=
  match Prim2SF x with
  | S754_zero _ => Some 0%Q
  | S754_finite s m e =>
      Some ((if s then -1 else 1) * inject_Z (Z.pos m) * Qpower 2 e)%Q
  | S754_infinity _ | S754_nan => None
  end.

(** Truncation of a rational toward zero. *)
Definition Qtrunc (v : Q) : Z := if Qle_bool 0 v then Qfloor v else Qceiling v.

(** [int(x)] of a double: truncation toward zero, undefined for a NaN, an
    infinity and a value outside the range of [int]. *)
Definition double_to_int_b64 (x : float) : result Z :=
  match double_value x with
  | Some v =>
      let z := Qtrunc v in
      if bool_decide (INT_MIN <= z)%Z && bool_decide (z <= INT_MAX)%Z
      then Ok z else Fail UndefinedBehaviour
  | None => Fail UndefinedBehaviour
  end.

(** The conversion to double of a loop counter [int i], 0 <= i, which is
    exact. *)
Definition int_to_double (i : nat) : float :=
  PrimFloat.of_uint63 (Uint63.of_Z (Z.of_nat i)).

Definition vector_of_size_b64 (n : Z) : result (list float) :=
  if bool_decide (n < 0)%Z then Fail LengthError
  else Ok (replicate (Z.to_nat n) 0%float).

(** Lines 305-307 on doubles: the difference and the quotient of line 305
    and the product and the sum of line 307 are each rounded (the product
    and the sum are not fused). *)
Definition energy_grid_b64 (omega_min omega_max omega_delta : float) :
    result (Z * list float) :=
  let* n_omega_vals :=
    double_to_int_b64 ((omega_max - omega_min) / omega_delta)%float in
  let* inv_cdf_data_erg := vector_of_size_b64 n_omega_vals in
  let inv_cdf_data_erg :=
    for_each_index
      (fun i _ => (omega_min + int_to_double i * omega_delta)%float)
      (Z.to_nat n_omega_vals) 0 inv_cdf_data_erg in
  Ok (n_omega_vals, inv_cdf_data_erg).

(** Lines 309-314: the spectrum on the grid, from the disc integrator. *)
Definition mc_spectrum (s : SolarModel) (process : SolarModel -> R -> R -> R)
    (r_max : R) (inv_cdf_data_erg : list R) : list R :=
  if decide (r_max < 1.0) then
    calculate_spectral_flux_solar_disc' inv_cdf_data_erg r_max s process
  else
    calculate_spectral_flux_solar_disc' inv_cdf_data_erg 1.0 s process.

(** Lines 316-325: the cumulative sum and its normalisation, in place on
    the vector [inv_cdf_data_x] that holds the spectrum; the result is the
    vector and [integrated_norm].  The write to index 0 of an empty vector
    is undefined behaviour. *)
Definition cumulate (omega_delta : R) (n_omega_vals : Z)
    (inv_cdf_data_x : list R) : result (list R * R) :=
  let norm := 0.0 in
  let* inv_cdf_data_x :=
    match inv_cdf_data_x !! 0%nat with
    | Some _ => Ok (<[0%nat := norm]> inv_cdf_data_x)
    | None => Fail UndefinedBehaviour
    end in
  let* r :=
    trapezoid_loop omega_delta (Z.to_nat (n_omega_vals - 1)) 1 norm
      inv_cdf_data_x in
  let norm := fst r in
  let inv_cdf_data_x := snd r in
  let integrated_norm := norm in
  let inv_cdf_data_x :=
    for_each_index (fun _ x => x / integrated_norm) (Z.to_nat n_omega_vals) 0
      inv_cdf_data_x in
  Ok (inv_cdf_data_x, integrated_norm).

Definition AxionMCGenerator_ctor (s : SolarModel)
    (process : SolarModel -> R -> R -> R)
    (omega_min omega_max omega_delta r_max : R) : result AxionMCGenerator :=
  let* g := energy_grid omega_min omega_max omega_delta in
  let n_omega_vals := fst g in
  let inv_cdf_data_erg := snd g in
  let inv_cdf_data_x := mc_spectrum s process r_max inv_cdf_data_erg in
  let* c := cumulate omega_delta n_omega_vals inv_cdf_data_x in
  let this := {| inv_cdf_data_erg := inv_cdf_data_erg;
                 inv_cdf_data_x := fst c;
                 integrated_norm := snd c |} in
  let* ready := init_inv_cdf_interpolator this in
  Ok this.

End Integrators.

(** * Reference formulas and sample data *)

(** The sum of a list of reals. *)
Definition Rsum (l : list R) : R := foldr Rplus 0 l.

(** The inner integrand of the disc integrator in the words of the
    specification: (rho/sqrt(rho^2-rad^2)) * (0.5*(erg/pi)^2) * process(erg, rho). *)
Definition rho_integrand_spec (rho : R) (p1 : solar_disc_integration_params) : R :=
  (rho / sqrt (rho ^ 2 - sd_rad p1 ^ 2)) * (0.5 * (sd_erg p1 / pi) ^ 2)
  * sd_integrand p1 (sd_s p1) (sd_erg p1) rho.

(** The running values of the trapezoid loop over the spectrum entries [fs]
    that follow an entry already replaced by [norm]. *)
Fixpoint running (omega_delta norm : R) (fs : list R) : list R :=
  match fs with
  | [] => []
  | f :: fs' =>
      let norm' := norm + 0.5 * omega_delta * (f + norm) in
      norm' :: running omega_delta norm' fs'
  end.

(** The value of [norm] after the trapezoid loop. *)
Definition final_norm (omega_delta norm : R) (fs : list R) : R :=
  foldl (fun norm f => norm + 0.5 * omega_delta * (f + norm)) norm fs.

(** The entries [fs] of a spectrum, each weighted by [h] and compounded by
    [1 + h] once for every entry behind it. *)
Fixpoint compound_sum (h : R) (fs : list R) : R :=
  match fs with
  | [] => 0
  | f :: fs' => h * f * (1 + h) ^ length fs' + compound_sum h fs'
  end.

(** The floor of a double that is finite. *)
Definition double_floor (x : float) : option Z := Qfloor <$> double_value x.

(** The number of grid points in the words of the specification, with the
    difference and the quotient taken exactly:
    floor((omega_max - omega_min)/omega_delta). *)
Definition exact_grid_count (omega_min omega_max omega_delta : float) : option Z :=
  match double_value omega_min, double_value omega_max, double_value omega_delta with
  | Some a, Some b, Some d => Some (Qfloor ((b - a) / d)%Q)
  | _, _, _ => None
  end.

(** The sign of a double that is finite and not a zero. *)
Definition finite_sign (s : bool) (x : spec_float) : Prop :=
  match x with
  | S754_finite s' _ _ => s' = s
  | _ => True
  end.

(** The window lies outside the energies of the table. *)
Definition out_of_range (erg_min erg_max : R) (spectral_flux : OneDInterpolator) : Prop :=
  erg_min < lower spectral_flux \/ erg_max > upper spectral_flux.

(** A solar model on [0, 1] whose rates are all 1. *)
Definition unit_model : SolarModel :=
  {| r_lo := 0; r_hi := 1; opcode := OP;
     temperature_in_keV := fun _ => 1;
     Gamma_P_Primakoff := fun _ _ => 1;
     Gamma_P_Compton := fun _ _ => 1;
     Gamma_P_opacity_element := fun _ _ _ => 1;
     Gamma_P_opacity := fun _ _ => 1;
     Gamma_P_ff := fun _ _ => 1;
     Gamma_P_ee := fun _ _ => 1;
     Gamma_P_all_electron := fun _ _ => 1 |}.

Definition unit_constants : Constants :=
  {| radius_sol := 1; keV2cm := 1; distance_sol := 1; hbar := 1;
     int_abs_prec := 0; int_rel_prec := 1; abs_prec2 := 0; rel_prec2 := 1;
     int_space_size := 1000; int_space_size_cquad := 1000;
     int_method_1 := 5; int_method_2 := 6;
     op_element_names := ["H"; "He"; "C"; "N"]%string |}.

(** An [init_inv_cdf_interpolator] that builds its interpolator. *)
Definition init_ready : AxionMCGenerator -> result unit := fun _ => Ok tt.

(** A quadrature stub whose every estimate is 1 with error 0. *)
Definition unit_gsl : GSL := fun _ => (1, 0).



(** A table on the energies from 1 to 8 with flux 1 throughout. *)
Definition unit_table : string -> OneDInterpolator :=
  fun _ => {| interpolate := fun _ => 1; lower := 1; upper := 8 |}.

(** The bundle the disc integrator passes down at energy 2 and impact
    parameter 0.3 for the Primakoff rate of [unit_model] with [r_max] 1. *)
Definition sample_disc_params : solar_disc_integration_params :=
  {| sd_erg := 2; sd_rad := 0.3; sd_r_max := 1; sd_s := unit_model;
     sd_integrand := Gamma_P_Primakoff |}.

(** * Properties *)

(** ** Arithmetic of the library functions *)

Lemma lit_0_5 : 0.5 = / 2.  Proof. lra. Qed.
Lemma lit_0_25 : 0.25 = / 4.  Proof. lra. Qed.
Lemma lit_1_0 : 1.0 = 1.  Proof. lra. Qed.
Lemma lit_0_0 : 0.0 = 0.  Proof. lra. Qed.

(** Decimal literals are rationals that [ring] and [field] do not read. *)
Ltac literals := rewrite ?lit_0_5, ?lit_0_25, ?lit_1_0, ?lit_0_0.

Lemma gsl_pow_2_sqr (x : R) : gsl_pow_2 x = x ^ 2.
Proof. unfold gsl_pow_2. ring. Qed.

Lemma pi_neq_0 : pi <> 0.
Proof. unfold pi. apply PI_neq0. Qed.

Lemma std_min_Rmin (a b : R) : std_min a b = Rmin a b.
Proof.
  unfold std_min, Rmin.
  destruct (decide (b < a)) as [Hlt | Hge], (Rle_dec a b) as [Hle | Hgt];
    try reflexivity; lra.
Qed.

Lemma std_min_idem_r (a b : R) : std_min (std_min a b) b = std_min a b.
Proof.
  rewrite !std_min_Rmin. unfold Rmin.
  destruct (Rle_dec a b) as [Hab | Hab].
  - destruct (Rle_dec a b); [reflexivity | contradiction].
  - destruct (Rle_dec b b); [reflexivity | lra].
Qed.

(** ** The inner integrand of the disc integrator *)

(** What [rho_integrand] computes: the weight is (0.5*erg/pi)^2, that is
    0.25*(erg/pi)^2. *)
Lemma rho_integrand_value (rho : R) (p1 : solar_disc_integration_params) :
  rho_integrand rho p1
  = (rho / sqrt (rho ^ 2 - sd_rad p1 ^ 2)) * (0.25 * (sd_erg p1 / pi) ^ 2)
    * sd_integrand p1 (sd_s p1) (sd_erg p1) rho.
Proof.
  unfold rho_integrand. cbv zeta. rewrite gsl_pow_2_sqr. literals.
  replace (rho * rho - sd_rad p1 * sd_rad p1) with (rho ^ 2 - sd_rad p1 ^ 2) by ring.
  unfold Rdiv. rewrite Rinv_1.
  generalize (/ sqrt (rho ^ 2 - sd_rad p1 ^ 2)) (/ pi). intros c q. field.
Qed.

(** The code returns half of what the specification's formula gives. *)
Lemma rho_integrand_half_of_spec (rho : R) (p1 : solar_disc_integration_params) :
  rho_integrand rho p1 = rho_integrand_spec rho p1 / 2.
Proof.
  rewrite rho_integrand_value. unfold rho_integrand_spec. literals.
  unfold Rdiv.
  generalize (/ sqrt (rho ^ 2 - sd_rad p1 ^ 2)) (/ pi). intros c q. field.
Qed.

Lemma sqrt_sample : sqrt (0.5 ^ 2 - 0.3 ^ 2) = 0.4.
Proof. apply sqrt_lem_1; lra. Qed.

(** C1.  At energy 2, impact parameter 0.3 and rho = 0.5 (so rad < rho <=
    r_max = 1), with a rate that is 1, [rho_integrand] returns 5/(4 pi^2),
    while the formula of the claim, with weight 0.5*(erg/pi)^2, gives
    5/(2 pi^2): the two differ, the code's weight being (0.5*erg/pi)^2. *)
Theorem rho_integrand_at_sample :
  rho_integrand 0.5 sample_disc_params = 5 / (4 * pi ^ 2)
  /\ rho_integrand_spec 0.5 sample_disc_params = 5 / (2 * pi ^ 2)
  /\ rho_integrand 0.5 sample_disc_params
     <> rho_integrand_spec 0.5 sample_disc_params.
Proof.
  assert (Hpi : pi <> 0) by apply pi_neq_0.
  assert (Hc : 0.5 / 0.4 = 5 / 4) by lra.
  assert (Hv : rho_integrand 0.5 sample_disc_params = 5 / (4 * pi ^ 2)).
  { rewrite rho_integrand_value. simpl sd_rad. simpl sd_erg. simpl sd_integrand.
    rewrite sqrt_sample, Hc. literals. simpl. field. exact Hpi. }
  assert (Hs : rho_integrand_spec 0.5 sample_disc_params = 5 / (2 * pi ^ 2)).
  { unfold rho_integrand_spec. simpl sd_rad. simpl sd_erg. simpl sd_integrand.
    rewrite sqrt_sample, Hc. literals. simpl. field. exact Hpi. }
  repeat split; [exact Hv | exact Hs | ].
  rewrite Hv, Hs. intros Heq.
  assert (Hpos : 0 < / (pi ^ 2)).
  { apply Rinv_0_lt_compat. apply pow_lt. unfold pi. apply PI_RGT_0. }
  assert (H4 : 5 / (4 * pi ^ 2) = 5 / 4 * / (pi ^ 2)).
  { field. exact Hpi. }
  assert (H2 : 5 / (2 * pi ^ 2) = 5 / 2 * / (pi ^ 2)).
  { field. exact Hpi. }
  rewrite H4, H2 in Heq. lra.
Qed.

(** ** The integrand library *)

(** C2.  For every radius and solar model, [integrand_weightedCompton]
    returns exactly 0 at energy 0, and at any other energy it returns
    0.5*(r*erg/pi)^2 * 0.5*(1 - 1/(exp(erg/T(r)) - 1)) * Gamma_P_Compton(erg, r). *)
Theorem integrand_weightedCompton_cases (r : R) (p : integration_params) :
  let erg := ip_erg p in
  let sol := ip_sol p in
  (erg = 0 -> integrand_weightedCompton r p = 0)
  /\ (erg <> 0 ->
      integrand_weightedCompton r p
      = 0.5 * (r * erg / pi) ^ 2
        * 0.5 * (1 - 1 / (exp (erg / temperature_in_keV sol r) - 1))
        * Gamma_P_Compton sol erg r).
Proof.
  cbv zeta. unfold integrand_weightedCompton. split; intros He.
  - destruct (decide (ip_erg p = 0)) as [_ | Hne]; [reflexivity | contradiction].
  - destruct (decide (ip_erg p = 0)) as [Hz | _]; [contradiction | ].
    rewrite gsl_pow_2_sqr. unfold gsl_expm1. rewrite lit_1_0. reflexivity.
Qed.

(** The loop of [integrand_opacity] adds, in order, the rates of the
    elements from index [k] on. *)
Lemma opacity_loop_drop (K : Constants) (sol : SolarModel) (erg r : R) :
  forall (fuel k : nat) (acc : R),
    (k + fuel)%nat = length (op_element_names K) ->
    opacity_loop K sol erg r fuel k acc
    = acc + Rsum (Gamma_P_opacity_element sol erg r <$> drop k (op_element_names K)).
Proof.
  induction fuel as [| fuel IH]; intros k acc Hlen.
  - simpl. rewrite drop_ge by lia. simpl. lra.
  - simpl opacity_loop. rewrite IH by lia.
    destruct (lookup_lt_is_Some_2 (op_element_names K) k) as [el Hel]; [lia | ].
    rewrite (drop_S _ _ _ Hel). rewrite (list_lookup_total_correct _ _ _ Hel).
    rewrite fmap_cons. simpl Rsum. lra.
Qed.

(** C9.  When the opacity code of the model is OP, [integrand_opacity]
    returns 0.5*(r*erg/pi)^2 times the sum of Gamma_P_opacity(erg, r,
    element) over the tabulated opacity elements without the first two;
    when it is OPAS, LEDCOP or ATOMIC, it returns 0.5*(r*erg/pi)^2 times the
    aggregate Gamma_P_opacity(erg, r). *)
Theorem integrand_opacity_cases (K : Constants) (r : R) (p : integration_params) :
  let erg := ip_erg p in
  let sol := ip_sol p in
  (opcode sol = OP ->
   integrand_opacity K r p
   = 0.5 * (r * erg / pi) ^ 2
     * Rsum (Gamma_P_opacity_element sol erg r <$> drop 2 (op_element_names K)))
  /\ (opcode sol = OPAS \/ opcode sol = LEDCOP \/ opcode sol = ATOMIC ->
      integrand_opacity K r p
      = 0.5 * (r * erg / pi) ^ 2 * Gamma_P_opacity sol erg r).
Proof.
  cbv zeta. unfold integrand_opacity. split.
  - intros Hop. rewrite Hop. simpl. rewrite gsl_pow_2_sqr. f_equal.
    unfold num_op_elements.
    destruct (Nat.le_gt_cases 2 (length (op_element_names K))) as [Hge | Hlt].
    + rewrite opacity_loop_drop by lia. rewrite lit_0_0. lra.
    + replace (length (op_element_names K) - 2)%nat with 0%nat by lia.
      rewrite drop_ge by lia. simpl. apply lit_0_0.
  - intros [Hop | [Hop | Hop]]; rewrite Hop; simpl; rewrite gsl_pow_2_sqr;
      reflexivity.
Qed.

(** ** The disc integrator *)

(** C4.  In a call of [calculate_spectral_flux_solar_disc], for every
    energy, the outer quadrature over the impact parameter and, for every
    impact parameter, the inner quadrature along the line of sight both have
    the upper bound min(requested r_max, r_hi of the solar model); the
    returned spectrum is the one computed with these bounds. *)
Theorem solar_disc_upper_bounds (K : Constants) (gsl : GSL) (ergs : list R)
    (isotope : Isotope) (r_max : R) (s : SolarModel)
    (integrand : SolarModel -> R -> R -> R) :
  let clamped := Rmin r_max (r_hi s) in
  (forall erg,
      upper_bound (solar_disc_call K gsl erg r_max s integrand) = Some clamped)
  /\ (forall erg rad,
         upper_bound
           (rad_integrand_call K rad (solar_disc_params erg r_max s integrand))
         = Some clamped)
  /\ calculate_spectral_flux_solar_disc K gsl ergs isotope r_max s integrand
     = (fun erg =>
          factor K * 1.0
          * fst (gsl (gsl_integration_qag
                   (fun rad =>
                      rad
                      * fst (gsl (gsl_integration_cquad
                               (fun rho =>
                                  rho_integrand rho
                                    {| sd_erg := erg; sd_rad := rad;
                                       sd_r_max := clamped; sd_s := s;
                                       sd_integrand := integrand |})
                               rad clamped
                               (0.1 * int_abs_prec K) (0.1 * int_rel_prec K))))
                   (r_lo s) clamped
                   (int_abs_prec K) (int_rel_prec K)
                   (int_space_size K) (int_method_1 K)))) <$> ergs.
Proof.
  cbv zeta. split; [ | split ].
  - intros erg. unfold solar_disc_call. simpl. now rewrite std_min_Rmin.
  - intros erg rad. unfold rad_integrand_call, solar_disc_params. simpl.
    now rewrite std_min_idem_r, std_min_Rmin.
  - unfold calculate_spectral_flux_solar_disc, solar_disc_call, rad_integrand,
      rad_integrand_call, solar_disc_params, set_erg, set_rad.
    simpl. rewrite std_min_idem_r, std_min_Rmin. reflexivity.
Qed.

(** ** The windowed on-the-fly integrator *)



(** C10.  [calculate_flux] takes a window, a solar model and an isotope and
    no process selector: its radial integrand is always
    [integrand_all_axionelectron], so the value it returns is built from the
    rate [Gamma_P_all_electron] alone, and it is the same for two solar
    models that agree on that rate and on their radial range, whatever
    their other rates and whatever the isotope. *)
Theorem calculate_flux_axionelectron_only (K : Constants) (gsl : GSL)
    (lowerlimit upperlimit : R) (s : SolarModel) (isotope : Isotope) :
  calculate_flux K gsl lowerlimit upperlimit s isotope
  = fst (gsl (gsl_integration_qag
           (fun erg =>
              spectral_flux_integrand K gsl erg
                {| ip2_sol := s; ip2_integrand := integrand_all_axionelectron;
                   ip2_isotope := isotope |})
           lowerlimit upperlimit (abs_prec2 K) (rel_prec2 K)
           100000000 (int_method_2 K)))
    * 1.0e20
  /\ calculate_flux K gsl lowerlimit upperlimit s isotope
     = fst (gsl (gsl_integration_qag
              (fun erg =>
                 factor K
                 * fst (gsl (gsl_integration_qag
                          (fun r =>
                             0.5 * gsl_pow_2 (r * erg / pi)
                             * Gamma_P_all_electron s erg r)
                          (r_lo s) (r_hi s) (int_abs_prec K) (int_rel_prec K)
                          (int_space_size K) (int_method_1 K)))
                 / 1.0)
              lowerlimit upperlimit (abs_prec2 K) (rel_prec2 K)
              100000000 (int_method_2 K)))
       * 1.0e20
  /\ (forall (s' : SolarModel) (isotope' : Isotope),
         r_lo s' = r_lo s -> r_hi s' = r_hi s ->
         Gamma_P_all_electron s' = Gamma_P_all_electron s ->
         calculate_flux K gsl lowerlimit upperlimit s' isotope'
         = calculate_flux K gsl lowerlimit upperlimit s isotope).
Proof.
  split; [reflexivity | split; [reflexivity | ] ].
  intros s' isotope' Hlo Hhi Hrate.
  unfold calculate_flux, calculate_flux_call, spectral_flux_integrand,
    integrand_all_axionelectron.
  simpl. rewrite Hlo, Hhi, Hrate. reflexivity.
Qed.

(** ** The windowed integrator over a tabulated spectrum *)

Section FromFile.

Variable K : Constants.
Variable gsl : GSL.
Variable OneDInterpolator_ctor : string -> OneDInterpolator.

Lemma push_back_loop_filter (P : R -> Prop) `{!forall x, Decision (P x)}
    (b : R -> bool) (Hb : forall x, b x = bool_decide (P x)) :
  forall (l acc : list R),
    foldl (fun acc x => if b x then acc ++ [x] else acc) acc l
    = acc ++ filter P l.
Proof using Type.
  induction l as [| x l IH]; intros acc; simpl.
  - now rewrite app_nil_r.
  - rewrite IH, Hb. rewrite filter_cons.
    destruct (decide (P x)) as [HP | HP].
    + rewrite bool_decide_eq_true_2 by exact HP. now rewrite <- app_assoc.
    + rewrite bool_decide_eq_false_2 by exact HP. reflexivity.
Qed.

(** The break points handed to [gsl_integration_qagp]. *)
Lemma relevant_peaks_filter (erg_min erg_max : R) :
  relevant_peaks erg_min erg_max
  = erg_min :: filter (fun p => erg_min < p /\ p < erg_max) all_peaks ++ [erg_max].
Proof using Type.
  unfold relevant_peaks. cbv zeta.
  rewrite (push_back_loop_filter (fun p => erg_min < p /\ p < erg_max)).
  - reflexivity.
  - intros x. destruct (decide (erg_min < x)) as [H1 | H1],
      (decide (x < erg_max)) as [H2 | H2].
    + rewrite !bool_decide_eq_true_2; tauto.
    + rewrite (bool_decide_eq_false_2 (x < erg_max)) by exact H2.
      rewrite andb_false_r. symmetry. apply bool_decide_eq_false_2. tauto.
    + rewrite (bool_decide_eq_false_2 (erg_min < x)) by exact H1.
      symmetry. apply bool_decide_eq_false_2. tauto.
    + rewrite (bool_decide_eq_false_2 (erg_min < x)) by exact H1.
      symmetry. apply bool_decide_eq_false_2. tauto.
Qed.

Lemma all_peaks_sorted : StronglySorted Rlt all_peaks.
Proof using Type.
  apply Sorted_StronglySorted.
  - intros x y z Hxy Hyz. lra.
  - unfold all_peaks. repeat (constructor; [ | try constructor; lra ]).
    constructor.
Qed.

(** Inserting the peaks strictly inside a window between its end points
    gives a strictly increasing sequence. *)
Lemma window_partition_sorted (erg_min erg_max : R) (l : list R) :
  erg_min < erg_max ->
  StronglySorted Rlt l ->
  StronglySorted Rlt
    (erg_min :: filter (fun p => erg_min < p /\ p < erg_max) l ++ [erg_max]).
Proof using Type.
  intros Hwin Hl. constructor.
  - induction Hl as [| x l Hl IH Hx]; simpl.
    + repeat constructor.
    + rewrite filter_cons. destruct (decide (erg_min < x /\ x < erg_max)) as [Hin | Hout].
      * simpl. constructor; [exact IH | ].
        apply Forall_app. split.
        -- apply Forall_forall. intros y Hy.
           apply list_elem_of_filter in Hy as [_ Hy].
           rewrite Forall_forall in Hx. now apply Hx.
        -- repeat constructor. tauto.
      * exact IH.
  - apply Forall_app. split.
    + apply Forall_forall. intros y Hy.
      apply list_elem_of_filter in Hy. tauto.
    + repeat constructor. exact Hwin.
Qed.

Lemma range_check_true (erg_min erg_max : R) (I : OneDInterpolator) :
  out_of_range erg_min erg_max I ->
  bool_decide (erg_min < lower I) || bool_decide (erg_max > upper I) = true.
Proof using Type.
  intros [H | H].
  - now rewrite (bool_decide_eq_true_2 _ H).
  - rewrite (bool_decide_eq_true_2 _ H). apply orb_true_r.
Qed.

Lemma range_check_false (erg_min erg_max : R) (I : OneDInterpolator) :
  ~ out_of_range erg_min erg_max I ->
  bool_decide (erg_min < lower I) || bool_decide (erg_max > upper I) = false.
Proof using Type.
  intros H. unfold out_of_range in H.
  rewrite !bool_decide_eq_false_2; [reflexivity | tauto | tauto].
Qed.

(** C3.  [integrated_flux_from_file] terminates with a range error, having
    made no quadrature call, exactly when [erg_min] is strictly below the
    lower bound of the table or [erg_max] strictly above its upper bound;
    otherwise it makes one quadrature call and returns its estimate, as it
    does for the window whose end points are the bounds of the table. *)
Theorem integrated_flux_from_file_range_error (erg_min erg_max : R)
    (spectral_flux_file : string) (includes_electron_interactions : bool) :
  let spectral_flux := OneDInterpolator_ctor spectral_flux_file in
  let run := fun erg_min erg_max =>
    integrated_flux_from_file K gsl OneDInterpolator_ctor erg_min erg_max
      spectral_flux_file includes_electron_interactions in
  ((exists msg, run erg_min erg_max = ([], Fail (RangeError msg)))
   <-> (erg_min < lower spectral_flux \/ erg_max > upper spectral_flux))
  /\ ((exists call, run erg_min erg_max = ([call], Ok (fst (gsl call))))
      <-> ~ (erg_min < lower spectral_flux \/ erg_max > upper spectral_flux))
  /\ (exists call,
         run (lower spectral_flux) (upper spectral_flux)
         = ([call], Ok (fst (gsl call)))).
Proof using Type.
  cbv zeta.
  assert (Hacc : forall a b,
             ~ out_of_range a b (OneDInterpolator_ctor spectral_flux_file) ->
             exists call,
               integrated_flux_from_file K gsl OneDInterpolator_ctor a b
                 spectral_flux_file includes_electron_interactions
               = ([call], Ok (fst (gsl call)))).
  { intros a b Hin. unfold integrated_flux_from_file. cbv zeta.
    rewrite (range_check_false _ _ _ Hin). eexists. reflexivity. }
  assert (Hrej : forall a b,
             out_of_range a b (OneDInterpolator_ctor spectral_flux_file) ->
             exists msg,
               integrated_flux_from_file K gsl OneDInterpolator_ctor a b
                 spectral_flux_file includes_electron_interactions
               = ([], Fail (RangeError msg))).
  { intros a b Hout. unfold integrated_flux_from_file. cbv zeta.
    rewrite (range_check_true _ _ _ Hout). eexists. reflexivity. }
  fold (out_of_range erg_min erg_max (OneDInterpolator_ctor spectral_flux_file)).
  destruct (decide (erg_min < lower (OneDInterpolator_ctor spectral_flux_file)))
    as [Hlo | Hlo];
  [ | destruct (decide (erg_max > upper (OneDInterpolator_ctor spectral_flux_file)))
        as [Hhi | Hhi] ].
  1, 2: assert (Hout : out_of_range erg_min erg_max
                         (OneDInterpolator_ctor spectral_flux_file))
          by (unfold out_of_range; tauto).
  3: assert (Hin : ~ out_of_range erg_min erg_max
                       (OneDInterpolator_ctor spectral_flux_file))
       by (unfold out_of_range; tauto).
  1, 2: destruct (Hrej _ _ Hout) as [msg Hmsg].
  3: destruct (Hacc _ _ Hin) as [call Hcall].
  1, 2: (split; [ split; [ intros _; exact Hout | intros _; now exists msg ] | ];
         split; [ split; [ intros [call Hcall]; rewrite Hmsg in Hcall; discriminate
                         | intros Hn; contradiction ] | ]).
  3: (split; [ split; [ intros [msg Hmsg]; rewrite Hcall in Hmsg; discriminate
                      | intros Ho; contradiction ] | ];
      split; [ split; [ intros _; exact Hin | intros _; now exists call ] | ]).
  all: apply Hacc; unfold out_of_range; lra.
Qed.

(** C5.  For a window inside the table: with the electron-interaction flag
    set, [integrated_flux_from_file] makes one call of the routine that
    takes break points, on the points erg_min, p_1, ..., p_k, erg_max, where
    p_1, ..., p_k are the entries of the fixed list of line energies with
    erg_min < p < erg_max, in the order of the list; these are exactly the
    lines strictly inside the window, and for erg_min < erg_max the points
    are strictly increasing.  With the flag unset it makes one adaptive
    call over [erg_min, erg_max]. *)
Theorem integrated_flux_from_file_split (erg_min erg_max : R)
    (spectral_flux_file : string) :
  let spectral_flux := OneDInterpolator_ctor spectral_flux_file in
  lower spectral_flux <= erg_min ->
  erg_max <= upper spectral_flux ->
  let inner := filter (fun p => erg_min < p /\ p < erg_max) all_peaks in
  let split_call :=
    gsl_integration_qagp (interpolate spectral_flux)
      (erg_min :: inner ++ [erg_max])
      (abs_prec2 K) (rel_prec2 K) (int_space_size K) in
  let single_call :=
    gsl_integration_qag (interpolate spectral_flux) erg_min erg_max
      (abs_prec2 K) (rel_prec2 K) (int_space_size K) (int_method_1 K) in
  integrated_flux_from_file K gsl OneDInterpolator_ctor erg_min erg_max
    spectral_flux_file true
  = ([split_call], Ok (fst (gsl split_call)))
  /\ (forall p, p ∈ inner <-> p ∈ all_peaks /\ erg_min < p /\ p < erg_max)
  /\ (erg_min < erg_max -> StronglySorted Rlt (erg_min :: inner ++ [erg_max]))
  /\ integrated_flux_from_file K gsl OneDInterpolator_ctor erg_min erg_max
       spectral_flux_file false
     = ([single_call], Ok (fst (gsl single_call))).
Proof using Type.
  cbv zeta. intros Hlo Hhi.
  assert (Hin : ~ out_of_range erg_min erg_max
                    (OneDInterpolator_ctor spectral_flux_file))
    by (unfold out_of_range; lra).
  repeat split.
  - unfold integrated_flux_from_file. cbv zeta.
    rewrite (range_check_false _ _ _ Hin), relevant_peaks_filter. reflexivity.
  - apply list_elem_of_filter in H. tauto.
  - apply list_elem_of_filter in H. tauto.
  - apply list_elem_of_filter in H. tauto.
  - intros [Hp [H1 H2]]. apply list_elem_of_filter. tauto.
  - intros Hwin. apply window_partition_sorted; [exact Hwin | apply all_peaks_sorted].
  - unfold integrated_flux_from_file. cbv zeta.
    rewrite (range_check_false _ _ _ Hin). reflexivity.
Qed.

End FromFile.

(** ** The energy grid of the Monte-Carlo generator *)

Lemma for_each_index_length {A : Type} (f : nat -> A -> A) :
  forall (fuel i : nat) (v : list A),
    length (for_each_index f fuel i v) = length v.
Proof.
  induction fuel as [| fuel IH]; intros i v; simpl.
  - reflexivity.
  - rewrite IH. apply length_alter.
Qed.

(** The loop rewrites the entries from [i] to [i + fuel - 1] and no other. *)
Lemma for_each_index_lookup {A : Type} (f : nat -> A -> A) :
  forall (fuel i : nat) (v : list A) (j : nat),
    for_each_index f fuel i v !! j
    = if bool_decide (i <= j < i + fuel)%nat then f j <$> v !! j else v !! j.
Proof.
  induction fuel as [| fuel IH]; intros i v j; simpl.
  - rewrite bool_decide_eq_false_2 by lia. reflexivity.
  - rewrite IH. rewrite list_lookup_alter.
    destruct (decide (i = j)) as [-> | Hne].
    + rewrite bool_decide_eq_false_2 by lia.
      rewrite bool_decide_eq_true_2 by lia. reflexivity.
    + destruct (decide (S i <= j < S i + fuel)%nat) as [Hin | Hout].
      * rewrite !bool_decide_eq_true_2 by lia. reflexivity.
      * rewrite !bool_decide_eq_false_2 by lia. reflexivity.
Qed.

(** Run over a whole vector, the loop is a map. *)
Lemma for_each_index_fmap (g : R -> R) (v : list R) :
  for_each_index (fun _ x => g x) (length v) 0 v = g <$> v.
Proof.
  apply list_eq. intros j. rewrite for_each_index_lookup, list_lookup_fmap.
  destruct (decide (j < length v)%nat) as [Hlt | Hge].
  - rewrite bool_decide_eq_true_2 by lia. reflexivity.
  - rewrite bool_decide_eq_false_2 by lia.
    rewrite (lookup_ge_None_2 v j) by lia. reflexivity.
Qed.

Lemma trunc_nonneg (x : R) : 0 <= x -> trunc x = Zfloor x.
Proof.
  intros Hx. unfold trunc. destruct (decide (0 <= x)); [reflexivity | contradiction].
Qed.

(** A grid that was built has as many points as its [int] count says, and
    its i-th point is [omega_min + i * omega_delta]. *)
Lemma energy_grid_inv (omega_min omega_max omega_delta : R) (n : Z) (grid : list R) :
  energy_grid omega_min omega_max omega_delta = Ok (n, grid) ->
  (0 <= n <= INT_MAX)%Z
  /\ n = trunc ((omega_max - omega_min) / omega_delta)
  /\ length grid = Z.to_nat n
  /\ forall i, (i < length grid)%nat ->
               grid !! i = Some (omega_min + INR i * omega_delta).
Proof.
  unfold energy_grid, double_to_int, vector_of_size. cbv zeta.
  set (z := trunc ((omega_max - omega_min) / omega_delta)).
  destruct (bool_decide (INT_MIN <= z)%Z && bool_decide (z <= INT_MAX)%Z) eqn:Hrange;
    simpl; [ | discriminate ].
  apply andb_true_iff in Hrange as [_ Hmax]. apply bool_decide_eq_true_1 in Hmax.
  destruct (bool_decide (z < 0)%Z) eqn:Hneg; simpl; [discriminate | ].
  apply bool_decide_eq_false_1 in Hneg.
  intros Heq. injection Heq as <- <-.
  rewrite for_each_index_length, length_replicate.
  repeat split; try lia.
  intros i Hi. rewrite for_each_index_lookup.
  rewrite bool_decide_eq_true_2 by lia.
  rewrite lookup_replicate_2 by lia. reflexivity.
Qed.

(** The grid is built whenever the truncated quotient is a non-negative [int]. *)
Lemma energy_grid_defined (omega_min omega_max omega_delta : R) :
  (0 <= trunc ((omega_max - omega_min) / omega_delta) <= INT_MAX)%Z ->
  exists grid,
    energy_grid omega_min omega_max omega_delta
    = Ok (trunc ((omega_max - omega_min) / omega_delta), grid).
Proof.
  intros [Hlo Hhi]. unfold energy_grid, double_to_int, vector_of_size. cbv zeta.
  set (z := trunc ((omega_max - omega_min) / omega_delta)) in *.
  rewrite (bool_decide_eq_true_2 (INT_MIN <= z)%Z) by (unfold INT_MIN; lia).
  rewrite (bool_decide_eq_true_2 (z <= INT_MAX)%Z) by exact Hhi.
  simpl. rewrite (bool_decide_eq_false_2 (z < 0)%Z) by lia.
  simpl. eexists. reflexivity.
Qed.

(** ** The energy grid on binary64 doubles *)

(** The sign that rounding is given is the sign of its finite results. *)
Lemma binary_round_aux_sign (sx : bool) (mx ex : Z) (lx : SpecFloat.location) :
  finite_sign sx (binary_round_aux prec emax sx mx ex lx).
Proof.
  unfold binary_round_aux.
  destruct (shr_fexp prec emax mx ex lx) as [mrs' e'].
  destruct (shr_fexp prec emax _ e' SpecFloat.loc_Exact) as [mrs'' e''].
  destruct (shr_m mrs''); simpl; [exact I | | exact I].
  destruct (Z.leb e'' (emax - prec)); simpl; [reflexivity | exact I].
Qed.

Lemma binary_normalize_sign (m e : Z) (szero : bool) :
  (0 <= m)%Z -> finite_sign false (binary_normalize prec emax m e szero).
Proof.
  intros Hm. destruct m as [| m | m]; simpl.
  - exact I.
  - unfold binary_round. destruct (shl_align m e _) as [mz ez].
    apply binary_round_aux_sign.
  - lia.
Qed.

Lemma iter_xO (m d : positive) :
  Z.pos (Pos.iter xO m d) = (Z.pos m * 2 ^ Z.pos d)%Z.
Proof.
  induction d as [| d IH] using Pos.peano_ind.
  - simpl. lia.
  - rewrite Pos.iter_succ, Pos2Z.inj_xO, IH, Pos2Z.inj_succ, Z.pow_succ_r by lia.
    lia.
Qed.

Lemma shl_align_value (m : positive) (e ez : Z) :
  (ez <= e)%Z ->
  Z.pos (fst (shl_align m e ez)) = (Z.pos m * 2 ^ (e - ez))%Z.
Proof.
  intros H. unfold shl_align.
  destruct (ez - e)%Z as [| d | d] eqn:Hd.
  - replace (e - ez)%Z with 0%Z by lia. simpl. lia.
  - lia.
  - simpl. rewrite iter_xO. f_equal. f_equal. lia.
Qed.

Lemma digits2_pos_bounds (m : positive) :
  (2 ^ (Z.pos (digits2_pos m) - 1) <= Z.pos m < 2 ^ Z.pos (digits2_pos m))%Z.
Proof.
  induction m as [m IH | m IH | ]; simpl digits2_pos.
  - rewrite Pos2Z.inj_succ.
    replace (Z.succ (Z.pos (digits2_pos m)) - 1)%Z with (Z.succ (Z.pos (digits2_pos m) - 1))%Z by lia.
    rewrite !Z.pow_succ_r by lia. lia.
  - rewrite Pos2Z.inj_succ.
    replace (Z.succ (Z.pos (digits2_pos m)) - 1)%Z with (Z.succ (Z.pos (digits2_pos m) - 1))%Z by lia.
    rewrite !Z.pow_succ_r by lia. lia.
  - simpl. lia.
Qed.

(** Of two valid doubles the one with the larger exponent has the larger
    magnitude. *)
Lemma canonical_exponent_order (s1 s2 : bool) (m1 m2 : positive) (e1 e2 : Z) :
  valid_binary (S754_finite s1 m1 e1) = true ->
  valid_binary (S754_finite s2 m2 e2) = true ->
  (e1 < e2)%Z ->
  (Z.pos m1 < Z.pos m2 * 2 ^ (e2 - e1))%Z.
Proof.
  unfold SpecFloat.valid_binary, SpecFloat.bounded, canonical_mantissa, fexp, SpecFloat.emin.
  intros H1 H2 He.
  apply andb_true_iff in H1 as [H1 _]. apply andb_true_iff in H2 as [H2 _].
  apply Z.eqb_eq in H1, H2.
  pose proof (digits2_pos_bounds m1) as [_ Hm1].
  pose proof (digits2_pos_bounds m2) as [Hm2 _].
  assert (Hd1 : (Z.pos (digits2_pos m1) <= prec)%Z) by lia.
  assert (Hd2 : (Z.pos (digits2_pos m2) = prec)%Z) by lia.
  rewrite Hd2 in Hm2.
  assert (Hp1 : (2 ^ Z.pos (digits2_pos m1) <= 2 ^ prec)%Z)
    by (apply Z.pow_le_mono_r; lia).
  assert (Hp2 : (2 ^ 1 <= 2 ^ (e2 - e1))%Z) by (apply Z.pow_le_mono_r; lia).
  replace (2 ^ prec)%Z with (2 ^ (prec - 1) * 2 ^ 1)%Z in Hp1
    by (rewrite <- Z.pow_add_r by (unfold prec; lia); f_equal; lia).
  nia.
Qed.

Lemma SFsub_sign (x y : spec_float) :
  valid_binary x = true -> valid_binary y = true ->
  SFltb y x = true ->
  finite_sign false (SF64sub x y).
Proof.
  intros Hx Hy Hlt. unfold SFltb in Hlt.
  destruct (SFcompare y x) as [[| |] |] eqn:Hc; try discriminate. clear Hlt.
  destruct x as [sx | sx | | sx mx ex], y as [sy | sy | | sy my ey];
    try (destruct sx; exact I); try (destruct sx, sy; exact I); try exact I.
  - (* 0 - finite *) simpl in *. destruct sy; [reflexivity | discriminate].
  - (* finite - 0 *) simpl in *. destruct sx; [discriminate | reflexivity].
  - (* finite - finite *)
    unfold SF64sub, SFsub. cbv zeta. apply binary_normalize_sign.
    simpl in Hc.
    assert (Hmin : (Z.min ex ey <= ex /\ Z.min ex ey <= ey)%Z) by lia.
    destruct Hmin as [Hmx Hmy].
    rewrite (shl_align_value mx ex _ Hmx), (shl_align_value my ey _ Hmy).
    destruct sx, sy; simpl; try discriminate.
    + (* both negative: |y| > |x| *)
      destruct (Z.compare_spec ey ex) as [He | He | He]; try discriminate.
      * subst ey. rewrite Z.min_id, Z.sub_diag. simpl.
        injection Hc as Hc. apply (f_equal CompOpp) in Hc.
        rewrite CompOpp_involutive in Hc. simpl in Hc.
        change (Pos.compare_cont Eq my mx) with (Pos.compare my mx) in Hc.
        rewrite Pos.compare_gt_iff in Hc. lia.
      * pose proof (canonical_exponent_order _ _ _ _ _ _ Hx Hy He) as Hord.
        rewrite Z.min_l by lia. rewrite Z.sub_diag. simpl (2 ^ 0)%Z. lia.
    + (* x positive, y negative *)
      assert (H1 : (0 < 2 ^ (ex - Z.min ex ey))%Z) by (apply Z.pow_pos_nonneg; lia).
      assert (H2 : (0 < 2 ^ (ey - Z.min ex ey))%Z) by (apply Z.pow_pos_nonneg; lia).
      nia.
    + (* both positive *)
      destruct (Z.compare_spec ey ex) as [He | He | He]; try discriminate.
      * subst ey. rewrite Z.min_id, Z.sub_diag. simpl.
        injection Hc as Hc.
        change (Pos.compare_cont Eq my mx) with (Pos.compare my mx) in Hc.
        rewrite Pos.compare_lt_iff in Hc. lia.
      * pose proof (canonical_exponent_order _ _ _ _ _ _ Hy Hx He) as Hord.
        rewrite Z.min_r by lia. rewrite Z.sub_diag. simpl (2 ^ 0)%Z. lia.
Qed.

Lemma SFdiv_sign (x d : spec_float) :
  finite_sign false x ->
  SFltb (S754_zero false) d = true ->
  finite_sign false (SF64div x d).
Proof.
  intros Hx Hd. unfold SFltb in Hd.
  destruct d as [sd | sd | | sd md ed]; simpl in Hd; try discriminate;
    destruct x as [sx | sx | | sx mx ex]; simpl; try exact I.
  destruct sd; [discriminate | ]. simpl in Hx. subst sx.
  destruct (SFdiv_core_binary prec emax (Z.pos mx) ex (Z.pos md) ed) as [[mz ez] lz].
  apply binary_round_aux_sign.
Qed.

Lemma quotient_sign (a b d : float) :
  (a <? b)%float = true ->
  (0 <? d)%float = true ->
  finite_sign false (Prim2SF ((b - a) / d)%float).
Proof.
  intros Hab Hd.
  rewrite FloatAxioms.ltb_spec in Hab, Hd.
  rewrite FloatAxioms.div_spec, FloatAxioms.sub_spec.
  apply SFdiv_sign.
  - apply SFsub_sign; [apply FloatAxioms.Prim2SF_valid .. | exact Hab].
  - exact Hd.
Qed.

Lemma double_value_nonneg (x : float) (v : Q) :
  finite_sign false (Prim2SF x) -> double_value x = Some v -> (0 <= v)%Q.
Proof.
  unfold double_value. destruct (Prim2SF x) as [s | s | | s m e]; simpl;
    intros Hs Hv; try discriminate; injection Hv as <-.
  - apply Qle_refl.
  - subst s. apply Qmult_le_0_compat.
    + rewrite Qmult_1_l. change 0%Q with (inject_Z 0). rewrite <- Zle_Qle. lia.
    + apply Qpower_0_le. discriminate.
Qed.

Lemma Qtrunc_nonneg (v : Q) : (0 <= v)%Q -> Qtrunc v = Qfloor v.
Proof.
  intros Hv. unfold Qtrunc. apply Qle_bool_iff in Hv. now rewrite Hv.
Qed.

Lemma Qfloor_nonneg (v : Q) : (0 <= v)%Q -> (0 <= Qfloor v)%Z.
Proof.
  intros Hv. change 0%Z with (Qfloor (inject_Z 0)). now apply Qfloor_resp_le.
Qed.

(** C7, as amended.  For doubles omega_min < omega_max and omega_delta > 0
    whose quotient q = (omega_max - omega_min)/omega_delta, the difference
    and the quotient each rounded to double, is finite with floor(q) at most
    INT_MAX, the energy grid has exactly floor(q) points and its i-th point
    is the double omega_min + i*omega_delta, the product and the sum each
    rounded. *)
Theorem energy_grid_b64_uniform (omega_min omega_max omega_delta : float) (n : Z) :
  (omega_min <? omega_max)%float = true ->
  (0 <? omega_delta)%float = true ->
  double_floor ((omega_max - omega_min) / omega_delta)%float = Some n ->
  (n <= INT_MAX)%Z ->
  exists grid,
    energy_grid_b64 omega_min omega_max omega_delta = Ok (n, grid)
    /\ length grid = Z.to_nat n
    /\ forall i, (i < length grid)%nat ->
                 grid !! i = Some (omega_min + int_to_double i * omega_delta)%float.
Proof.
  intros Hw Hd Hq Hmax.
  pose proof (quotient_sign _ _ _ Hw Hd) as Hsign.
  unfold double_floor in Hq.
  destruct (double_value ((omega_max - omega_min) / omega_delta)%float)
    as [v | ] eqn:Hv; simpl in Hq; [ | discriminate ].
  injection Hq as Hn.
  pose proof (double_value_nonneg _ _ Hsign Hv) as Hpos.
  pose proof (Qfloor_nonneg _ Hpos) as Hn0. rewrite Hn in Hn0.
  unfold energy_grid_b64, double_to_int_b64, vector_of_size_b64. cbv zeta.
  rewrite Hv, (Qtrunc_nonneg _ Hpos), Hn.
  rewrite (bool_decide_eq_true_2 (INT_MIN <= n)%Z) by (unfold INT_MIN; lia).
  rewrite (bool_decide_eq_true_2 (n <= INT_MAX)%Z) by exact Hmax.
  simpl. rewrite (bool_decide_eq_false_2 (n < 0)%Z) by lia.
  simpl. eexists. split; [reflexivity | ].
  rewrite for_each_index_length, length_replicate. split; [reflexivity | ].
  intros i Hi. rewrite for_each_index_lookup.
  rewrite bool_decide_eq_true_2 by lia.
  rewrite lookup_replicate_2 by lia. reflexivity.
Qed.

Lemma energy_grid_b64_uniform_witness :
  exists grid,
    energy_grid_b64 0 1 0x1.999999999999ap-4 = Ok (10%Z, grid)
    /\ length grid = Z.to_nat 10
    /\ forall i, (i < length grid)%nat ->
                 grid !! i
                 = Some (0 + int_to_double i * 0x1.999999999999ap-4)%float.
Proof.
  apply (energy_grid_b64_uniform 0 1 0x1.999999999999ap-4 10).
  - vm_compute. reflexivity.
  - vm_compute. reflexivity.
  - vm_compute. reflexivity.
  - vm_compute. discriminate.
Defined.

(** C7, as stated, fails in two ways.  For the doubles omega_min = 0,
    omega_max = 1 and omega_delta = 0.1 (0x1.999999999999ap-4, a little
    above one tenth) the exact quotient is a little below 10 and its floor
    is 9, but the quotient rounds to 10 and the grid has 10 points.  For
    omega_min = 0, omega_max = 2147483648 and omega_delta = 1 the count is
    not an [int]: the conversion is undefined and no grid is built. *)
Lemma energy_grid_b64_not_exact_floor :
  ((0 <? 1)%float = true
   /\ (0 <? 0x1.999999999999ap-4)%float = true
   /\ exact_grid_count 0 1 0x1.999999999999ap-4 = Some 9%Z
   /\ exists grid,
        energy_grid_b64 0 1 0x1.999999999999ap-4 = Ok (10%Z, grid)
        /\ length grid = 10%nat)
  /\ ((0 <? 2147483648)%float = true
      /\ (0 <? 1)%float = true
      /\ exact_grid_count 0 2147483648 1 = Some 2147483648%Z
      /\ energy_grid_b64 0 2147483648 1 = Fail UndefinedBehaviour).
Proof.
  split.
  - split; [vm_compute; reflexivity | ].
    split; [vm_compute; reflexivity | ].
    split; [vm_compute; reflexivity | ].
    eexists. split; vm_compute; reflexivity.
  - split; [vm_compute; reflexivity | ].
    split; [vm_compute; reflexivity | ].
    split; vm_compute; reflexivity.
Qed.

(** ** The cumulative table of the Monte-Carlo generator *)

Lemma final_norm_cons (omega_delta norm f : R) (fs : list R) :
  final_norm omega_delta norm (f :: fs)
  = final_norm omega_delta (norm + 0.5 * omega_delta * (f + norm)) fs.
Proof. reflexivity. Qed.

(** When the entries before index [length pre] already hold running values,
    the last of them [norm], the loop replaces the spectrum entries [fs]
    behind them by the running values that follow. *)
Lemma trapezoid_loop_running (omega_delta : R) :
  forall (fs pre : list R) (norm : R),
    last pre = Some norm ->
    trapezoid_loop omega_delta (length fs) (length pre) norm (pre ++ fs)
    = Ok (final_norm omega_delta norm fs, pre ++ running omega_delta norm fs).
Proof.
  induction fs as [| f fs IH]; intros pre norm Hlast.
  - simpl. rewrite app_nil_r. reflexivity.
  - assert (Hpre : (0 < length pre)%nat).
    { destruct pre; [discriminate | simpl; lia]. }
    simpl trapezoid_loop.
    rewrite (lookup_app_r pre) by lia. rewrite Nat.sub_diag. simpl lookup.
    rewrite (lookup_app_l pre) by lia.
    rewrite last_lookup in Hlast.
    replace (length pre - 1)%nat with (Init.Nat.pred (length pre)) by lia.
    rewrite Hlast.
    set (norm' := norm + 0.5 * omega_delta * (f + norm)).
    replace (<[length pre := norm']> (pre ++ f :: fs))
      with ((pre ++ [norm']) ++ fs).
    2: { replace (length pre) with (length pre + 0)%nat at 1 by lia.
         rewrite insert_app_r. simpl. now rewrite <- app_assoc. }
    replace (S (length pre)) with (length (pre ++ [norm'])).
    2: { rewrite length_app. simpl. lia. }
    rewrite IH by apply last_snoc.
    rewrite final_norm_cons. fold norm'. simpl running. fold norm'.
    now rewrite <- app_assoc.
Qed.

(** The cumulative table of a spectrum [f0 :: fs] on a grid of that many
    points: the running values behind a leading 0, divided by the last. *)
Lemma cumulate_running (omega_delta f0 : R) (fs : list R) :
  cumulate omega_delta (Z.of_nat (length (f0 :: fs))) (f0 :: fs)
  = Ok ((fun x => x / final_norm omega_delta 0 fs) <$> (0 :: running omega_delta 0 fs),
        final_norm omega_delta 0 fs).
Proof.
  unfold cumulate. cbv zeta. simpl lookup. simpl bind at 1.
  rewrite lit_0_0. simpl length.
  replace (Z.to_nat (Z.of_nat (S (length fs)) - 1)) with (length fs) by lia.
  change (<[0%nat := 0]> (f0 :: fs)) with ([0] ++ fs).
  change 1%nat with (length [0]).
  rewrite trapezoid_loop_running by reflexivity.
  simpl bind. rewrite Nat2Z.id.
  replace (S (length fs)) with (length ([0] ++ running omega_delta 0 fs)).
  2: { simpl. f_equal.
       clear. generalize 0. induction fs as [| f fs IH]; intros n; simpl;
         [reflexivity | now rewrite IH]. }
  rewrite (for_each_index_fmap (fun x => x / final_norm omega_delta 0 fs)).
  reflexivity.
Qed.

(** Without a first entry there is nothing to write the leading 0 to. *)
Lemma cumulate_empty (omega_delta : R) (n : Z) :
  cumulate omega_delta n [] = Fail UndefinedBehaviour.
Proof. reflexivity. Qed.

(** For a step and a spectrum that are not negative the running values do
    not decrease. *)
Lemma running_sorted (omega_delta : R) :
  0 <= omega_delta ->
  forall (fs : list R) (norm : R),
    0 <= norm -> Forall (fun f => 0 <= f) fs ->
    Sorted Rle (norm :: running omega_delta norm fs).
Proof.
  intros Hd. induction fs as [| f fs IH]; intros norm Hn Hfs; simpl.
  - repeat constructor.
  - apply Forall_cons_1 in Hfs as [Hf Hfs].
    assert (Hstep : norm <= norm + 0.5 * omega_delta * (f + norm)) by nra.
    constructor.
    + apply IH; [lra | exact Hfs].
    + constructor. exact Hstep.
Qed.

Lemma Sorted_Rle_scale (c : R) (l : list R) :
  0 < c -> Sorted Rle l -> Sorted Rle ((fun x => x / c) <$> l).
Proof.
  intros Hc Hl. induction Hl as [| x l Hl IH Hhd]; simpl.
  - constructor.
  - constructor; [exact IH | ].
    destruct Hhd as [| y l Hxy]; simpl; constructor.
    unfold Rdiv. apply Rmult_le_compat_r; [ | exact Hxy].
    apply Rlt_le. now apply Rinv_0_lt_compat.
Qed.

Lemma last_running (omega_delta : R) (fs : list R) :
  forall norm,
    last (norm :: running omega_delta norm fs)
    = Some (final_norm omega_delta norm fs).
Proof.
  induction fs as [| f fs IH]; intros norm.
  - reflexivity.
  - simpl running. rewrite last_cons_cons, IH. reflexivity.
Qed.

Lemma Sorted_Rle_lookup (l : list R) :
  Sorted Rle l ->
  forall (i j : nat) (a b : R),
    (i <= j)%nat -> l !! i = Some a -> l !! j = Some b -> a <= b.
Proof.
  intros Hl. apply Sorted_StronglySorted in Hl; [ | intros x y z; apply Rle_trans ].
  induction Hl as [| x l Hl IH Hx]; intros i j a b Hij Hi Hj.
  - discriminate.
  - destruct i as [| i], j as [| j]; simpl in Hi, Hj.
    + injection Hi as <-. injection Hj as <-. apply Rle_refl.
    + injection Hi as <-. rewrite Forall_forall in Hx. apply Hx.
      eapply list_elem_of_lookup_2. exact Hj.
    + lia.
    + apply (IH i j); [lia | exact Hi | exact Hj].
Qed.

(** The total is at least the value the loop starts from, and it is
    positive as soon as one spectrum entry behind the first is. *)
Lemma final_norm_ge (omega_delta : R) :
  0 <= omega_delta ->
  forall (fs : list R) (norm : R),
    0 <= norm -> Forall (fun f => 0 <= f) fs ->
    norm <= final_norm omega_delta norm fs.
Proof.
  intros Hd. induction fs as [| f fs IH]; intros norm Hn Hfs.
  - apply Rle_refl.
  - apply Forall_cons_1 in Hfs as [Hf Hfs]. rewrite final_norm_cons.
    assert (Hstep : norm <= norm + 0.5 * omega_delta * (f + norm)) by nra.
    apply Rle_trans with (1 := Hstep). apply IH; [lra | exact Hfs].
Qed.

Lemma final_norm_pos (omega_delta : R) :
  0 < omega_delta ->
  forall (fs : list R) (norm : R),
    0 <= norm -> Forall (fun f => 0 <= f) fs -> Exists (fun f => 0 < f) fs ->
    0 < final_norm omega_delta norm fs.
Proof.
  intros Hd. induction fs as [| f fs IH]; intros norm Hn Hfs Hex.
  - inversion Hex.
  - apply Forall_cons_1 in Hfs as [Hf Hfs]. rewrite final_norm_cons.
    assert (Hstep : norm <= norm + 0.5 * omega_delta * (f + norm)) by nra.
    apply Exists_cons in Hex as [Hpos | Hex].
    + assert (Hgt : 0 < norm + 0.5 * omega_delta * (f + norm)) by nra.
      apply Rlt_le_trans with (1 := Hgt).
      apply final_norm_ge; [lra | lra | exact Hfs].
    + apply IH; [lra | exact Hfs | exact Hex].
Qed.

Section Generator.

Variable K : Constants.
Variable gsl : GSL.
Variable init : AxionMCGenerator -> result unit.

Lemma mc_spectrum_length (s : SolarModel) (process : SolarModel -> R -> R -> R)
    (r_max : R) (grid : list R) :
  length (mc_spectrum K gsl s process r_max grid) = length grid.
Proof using Type.
  unfold mc_spectrum, calculate_spectral_flux_solar_disc',
    calculate_spectral_flux_solar_disc.
  destruct (decide (r_max < 1.0)); cbv zeta; apply length_fmap.
Qed.

(** What a constructed generator holds: the spectrum on its grid has a
    first entry, and the cumulative table is the leading 0 and the running
    values over the rest of the spectrum, each divided by the total. *)
Lemma AxionMCGenerator_ctor_inv (s : SolarModel)
    (process : SolarModel -> R -> R -> R)
    (omega_min omega_max omega_delta r_max : R) (g : AxionMCGenerator) :
  AxionMCGenerator_ctor K gsl init s process omega_min omega_max omega_delta r_max = Ok g ->
  exists (f0 : R) (fs : list R),
    mc_spectrum K gsl s process r_max (inv_cdf_data_erg g) = f0 :: fs
    /\ integrated_norm g = final_norm omega_delta 0 fs
    /\ inv_cdf_data_x g
       = (fun x => x / integrated_norm g) <$> (0 :: running omega_delta 0 fs).
Proof using Type.
  unfold AxionMCGenerator_ctor.
  destruct (energy_grid omega_min omega_max omega_delta) as [[n grid] | e] eqn:Hgrid;
    simpl; [ | discriminate ].
  apply energy_grid_inv in Hgrid as (Hn & _ & Hlen & _).
  pose proof (mc_spectrum_length s process r_max grid) as Hspec.
  destruct (mc_spectrum K gsl s process r_max grid) as [| f0 fs] eqn:Hs.
  - rewrite cumulate_empty. simpl. discriminate.
  - replace n with (Z.of_nat (length (f0 :: fs))) by (rewrite Hspec, Hlen; lia).
    rewrite cumulate_running. simpl.
    destruct (init _) as [ready | e]; simpl; [ | discriminate ].
    intros Heq. injection Heq as <-. simpl.
    exists f0, fs. rewrite Hs. repeat split.
Qed.

(** The constructor succeeds on every grid of at least one point, when the
    interpolator can be built. *)
Lemma AxionMCGenerator_ctor_defined (s : SolarModel)
    (process : SolarModel -> R -> R -> R)
    (omega_min omega_max omega_delta r_max : R) (n : Z) (grid : list R) :
  energy_grid omega_min omega_max omega_delta = Ok (n, grid) ->
  (1 <= n)%Z ->
  (forall g, init g = Ok tt) ->
  exists g,
    AxionMCGenerator_ctor K gsl init s process omega_min omega_max omega_delta r_max = Ok g
    /\ inv_cdf_data_erg g = grid.
Proof using Type.
  intros Hgrid Hn Hinit. unfold AxionMCGenerator_ctor. rewrite Hgrid. simpl.
  apply energy_grid_inv in Hgrid as (_ & _ & Hlen & _).
  pose proof (mc_spectrum_length s process r_max grid) as Hspec.
  destruct (mc_spectrum K gsl s process r_max grid) as [| f0 fs] eqn:Hs.
  - simpl in Hspec. lia.
  - replace n with (Z.of_nat (length (f0 :: fs))) by (rewrite Hspec, Hlen; lia).
    rewrite cumulate_running. simpl. rewrite Hinit. simpl.
    eexists. split; reflexivity.
Qed.


End Generator.

(** ** Sample runs *)

Lemma unit_spectrum_pos (s : SolarModel) (process : SolarModel -> R -> R -> R)
    (r_max : R) (grid : list R) :
  Forall (fun f => 0 < f) (mc_spectrum unit_constants unit_gsl s process r_max grid).
Proof.
  assert (Hc : 0 < factor unit_constants * 1.0 * 1).
  { unfold factor, unit_constants. simpl. lra. }
  unfold mc_spectrum, calculate_spectral_flux_solar_disc',
    calculate_spectral_flux_solar_disc.
  destruct (decide (r_max < 1.0)); cbv zeta; apply Forall_fmap, Forall_true;
    intros erg; exact Hc.
Qed.

Lemma trunc_3 : trunc ((3 - 0) / 1) = 3%Z.
Proof.
  replace ((3 - 0) / 1) with (IZR 3) by lra.
  rewrite trunc_nonneg by lra. apply ZfloorZ.
Qed.

(** The generator for the Primakoff rate of [unit_model] on the energies
    0, 1, 2 is constructed, from a positive spectrum with a positive total. *)
Lemma sample_generator :
  exists g,
    AxionMCGenerator_ctor unit_constants unit_gsl init_ready unit_model Gamma_P_Primakoff
      0 3 1 1 = Ok g
    /\ Forall (fun f => 0 <= f)
         (mc_spectrum unit_constants unit_gsl unit_model Gamma_P_Primakoff 1
            (inv_cdf_data_erg g))
    /\ integrated_norm g > 0.
Proof.
  destruct (energy_grid_defined 0 3 1) as [grid Hgrid].
  { rewrite trunc_3. unfold INT_MAX. lia. }
  rewrite trunc_3 in Hgrid.
  destruct (AxionMCGenerator_ctor_defined unit_constants unit_gsl init_ready
              unit_model Gamma_P_Primakoff 0 3 1 1 3 grid Hgrid)
    as (g & Hg & Herg); [lia | reflexivity | ].
  exists g. split; [exact Hg | ].
  pose proof (unit_spectrum_pos unit_model Gamma_P_Primakoff 1 (inv_cdf_data_erg g))
    as Hpos.
  split.
  - eapply Forall_impl; [exact Hpos | ]. intros f Hf. simpl in Hf. lra.
  - destruct (AxionMCGenerator_ctor_inv _ _ _ _ _ _ _ _ _ _ Hg) as (f0 & fs & Hs & HN & _).
    rewrite HN. apply Rlt_gt.
    pose proof (mc_spectrum_length unit_constants unit_gsl unit_model
                  Gamma_P_Primakoff 1 (inv_cdf_data_erg g)) as Hlen.
    apply energy_grid_inv in Hgrid as (_ & _ & Hgl & _).
    rewrite Hs, Herg, Hgl in Hlen. rewrite Hs in Hpos.
    apply Forall_cons_1 in Hpos as [_ Hfs].
    destruct fs as [| f1 fs]; [simpl in Hlen; lia | ].
    apply final_norm_pos; [lra | lra | | ].
    + eapply Forall_impl; [exact Hfs | ]. intros f Hf. simpl in Hf. lra.
    + apply Exists_cons_hd. now apply Forall_cons_1 in Hfs as [Hf1 _].
Qed.


Lemma integrated_flux_from_file_split_witness :
  integrated_flux_from_file unit_constants unit_gsl unit_table 1 2 "table" false
  = ([gsl_integration_qag (fun _ => 1) 1 2 0 1 1000 5], Ok 1)
  /\ StronglySorted Rlt
       (1 :: filter (fun p => 1 < p /\ p < 2) all_peaks ++ [2]).
Proof.
  destruct (integrated_flux_from_file_split unit_constants unit_gsl unit_table
              1 2 "table") as (_ & _ & Hsorted & Hsingle).
  - simpl. lra.
  - simpl. lra.
  - split; [exact Hsingle | apply Hsorted; lra].
Defined.

(** ** Generators outside the conditions of the cumulative table *)












(** * Further properties of the integrand library *)

Lemma weight_vanishes (r erg : R) :
  r = 0 \/ erg = 0 -> 0.5 * gsl_pow_2 (r * erg / pi) = 0.
Proof.
  intros H. replace (r * erg) with 0 by (destruct H as [-> | ->]; ring).
  unfold gsl_pow_2, Rdiv. rewrite !Rmult_0_l. apply Rmult_0_r.
Qed.

(** X1.  Every integrand of the volume integrator is 0 at the centre of the
    Sun (r = 0) and at energy 0, whatever the rates of the solar model. *)
Theorem integrands_vanish (K : Constants) (r : R) (p : integration_params) :
  r = 0 \/ ip_erg p = 0 ->
  integrand_Primakoff r p = 0
  /\ integrand_Compton r p = 0
  /\ integrand_weightedCompton r p = 0
  /\ integrand_opacity_element r p = 0
  /\ integrand_opacity K r p = 0
  /\ integrand_all_ff r p = 0
  /\ integrand_all_axionelectron r p = 0.
Proof.
  intros H. pose proof (weight_vanishes r (ip_erg p) H) as Hw.
  unfold integrand_Primakoff, integrand_Compton, integrand_weightedCompton,
    integrand_opacity_element, integrand_opacity, integrand_all_ff,
    integrand_all_axionelectron.
  cbv zeta. repeat split; try (rewrite Hw; apply Rmult_0_l).
  - destruct (decide (ip_erg p = 0)); [reflexivity | ].
    rewrite Hw, !Rmult_0_l. reflexivity.
  - destruct (opcode (ip_sol p)); simpl; rewrite Hw; apply Rmult_0_l.
Qed.

Lemma integrands_vanish_witness :
  integrand_Primakoff 0 {| ip_erg := 2; ip_sol := unit_model;
                           ip_isotope := {| name := "C" |} |} = 0.
Proof.
  apply (integrands_vanish unit_constants 0
           {| ip_erg := 2; ip_sol := unit_model; ip_isotope := {| name := "C" |} |}).
  left. reflexivity.
Defined.

(** X2.  Away from energy 0 the weighted-Compton integrand is the Compton
    integrand times the factor 0.5*(1 - 1/gsl_expm1(erg/T(r))). *)
Theorem integrand_weightedCompton_factor (r : R) (p : integration_params) :
  ip_erg p <> 0 ->
  integrand_weightedCompton r p
  = integrand_Compton r p
    * (0.5 * (1.0 - 1.0 / gsl_expm1 (ip_erg p / temperature_in_keV (ip_sol p) r))).
Proof.
  intros He. unfold integrand_weightedCompton, integrand_Compton. cbv zeta.
  destruct (decide (ip_erg p = 0)); [contradiction | ].
  generalize (1.0 - 1.0 / gsl_expm1 (ip_erg p / temperature_in_keV (ip_sol p) r)).
  generalize (gsl_pow_2 (r * ip_erg p / pi)).
  intros w c. literals. ring.
Qed.

Lemma integrand_weightedCompton_factor_witness :
  integrand_weightedCompton 1 {| ip_erg := 2; ip_sol := unit_model;
                                 ip_isotope := {| name := "C" |} |}
  = integrand_Compton 1 {| ip_erg := 2; ip_sol := unit_model;
                           ip_isotope := {| name := "C" |} |}
    * (0.5 * (1.0 - 1.0 / gsl_expm1 (2 / 1))).
Proof.
  apply (integrand_weightedCompton_factor 1
           {| ip_erg := 2; ip_sol := unit_model; ip_isotope := {| name := "C" |} |}).
  simpl. lra.
Defined.

Lemma Rsum_scale (c : R) (l : list R) :
  c * Rsum l = Rsum ((fun x => c * x) <$> l).
Proof.
  induction l as [| x l IH].
  - simpl. apply Rmult_0_r.
  - rewrite fmap_cons. simpl Rsum. rewrite <- IH.
    apply Rmult_plus_distr_l.
Qed.

(** X3.  For a model on the OP opacities, the aggregated opacity integrand
    is the sum of the single-element integrands over the tabulated elements
    without the first two. *)
Theorem integrand_opacity_sum_of_elements (K : Constants) (r : R)
    (p : integration_params) :
  opcode (ip_sol p) = OP ->
  integrand_opacity K r p
  = Rsum ((fun el =>
             integrand_opacity_element r
               {| ip_erg := ip_erg p; ip_sol := ip_sol p;
                  ip_isotope := {| name := el |} |})
          <$> drop 2 (op_element_names K)).
Proof.
  intros Hop. unfold integrand_opacity, integrand_opacity_element. cbv zeta.
  rewrite Hop. simpl.
  assert (Hloop : opacity_loop K (ip_sol p) (ip_erg p) r (num_op_elements K - 2) 2 0.0
                  = Rsum (Gamma_P_opacity_element (ip_sol p) (ip_erg p) r
                          <$> drop 2 (op_element_names K))).
  { unfold num_op_elements.
    destruct (Nat.le_gt_cases 2 (length (op_element_names K))) as [Hge | Hlt].
    - rewrite opacity_loop_drop by lia. rewrite lit_0_0. lra.
    - replace (length (op_element_names K) - 2)%nat with 0%nat by lia.
      rewrite drop_ge by lia. simpl. apply lit_0_0. }
  rewrite Hloop, Rsum_scale, <- list_fmap_compose. reflexivity.
Qed.

Lemma integrand_opacity_sum_of_elements_witness :
  integrand_opacity unit_constants 1
    {| ip_erg := 2; ip_sol := unit_model; ip_isotope := {| name := "" |} |}
  = Rsum ((fun el =>
             integrand_opacity_element 1
               {| ip_erg := 2; ip_sol := unit_model;
                  ip_isotope := {| name := el |} |})
          <$> ["C"; "N"]%string).
Proof.
  apply (integrand_opacity_sum_of_elements unit_constants 1
           {| ip_erg := 2; ip_sol := unit_model; ip_isotope := {| name := "" |} |}).
  reflexivity.
Defined.

(** * Further properties of the integrators *)

(** X4.  The integrand of the windowed integrator is the volume integrator
    at one energy: the spectrum [calculate_spectral_flux] returns is
    [spectral_flux_integrand] applied to each energy, for the same solar
    model, radial integrand and isotope. *)
Theorem calculate_spectral_flux_pointwise (K : Constants) (gsl : GSL)
    (ergs : list R) (isotope : Isotope) (s : SolarModel)
    (integrand : R -> integration_params -> R) :
  calculate_spectral_flux K gsl ergs isotope s integrand
  = (fun erg =>
       spectral_flux_integrand K gsl erg
         {| ip2_sol := s; ip2_integrand := integrand; ip2_isotope := isotope |})
    <$> ergs.
Proof.
  unfold calculate_spectral_flux, spectral_flux_integrand. cbv zeta.
  apply list_fmap_ext. intros i erg _. simpl.
  rewrite lit_1_0. unfold Rdiv. rewrite Rinv_1. symmetry. apply Rmult_1_r.
Qed.

Lemma std_min_above (a b : R) : b <= a -> std_min a b = b.
Proof.
  intros H. rewrite std_min_Rmin. apply Rmin_right. exact H.
Qed.

(** X5.  A requested r_max at or beyond r_hi of the solar model changes
    nothing: the disc integrator returns the spectrum it returns for
    r_max = r_hi. *)
Theorem solar_disc_saturates (K : Constants) (gsl : GSL) (ergs : list R)
    (isotope : Isotope) (r_max : R) (s : SolarModel)
    (integrand : SolarModel -> R -> R -> R) :
  r_hi s <= r_max ->
  calculate_spectral_flux_solar_disc K gsl ergs isotope r_max s integrand
  = calculate_spectral_flux_solar_disc K gsl ergs isotope (r_hi s) s integrand.
Proof.
  intros H.
  unfold calculate_spectral_flux_solar_disc, solar_disc_call, solar_disc_params.
  cbv zeta. rewrite (std_min_above r_max (r_hi s) H).
  rewrite (std_min_above (r_hi s) (r_hi s)) by apply Rle_refl. reflexivity.
Qed.

Lemma solar_disc_saturates_witness :
  calculate_spectral_flux_solar_disc unit_constants unit_gsl [1; 2]
    {| name := "" |} 2 unit_model Gamma_P_Primakoff
  = calculate_spectral_flux_solar_disc unit_constants unit_gsl [1; 2]
      {| name := "" |} 1 unit_model Gamma_P_Primakoff.
Proof.
  apply (solar_disc_saturates unit_constants unit_gsl [1; 2] {| name := "" |} 2
           unit_model Gamma_P_Primakoff).
  simpl. lra.
Defined.

(** X6.  On the line of sight through the centre (impact parameter 0) the
    geometric factor rho/sqrt(rho^2 - rad^2) is 1: for rho > 0 the inner
    integrand is gsl_pow_2(0.5*erg/pi) times the rate at radius rho. *)
Theorem rho_integrand_on_axis (rho : R) (p1 : solar_disc_integration_params) :
  sd_rad p1 = 0 ->
  0 < rho ->
  rho_integrand rho p1
  = gsl_pow_2 (0.5 * sd_erg p1 / pi) * sd_integrand p1 (sd_s p1) (sd_erg p1) rho.
Proof.
  intros Hrad Hrho. unfold rho_integrand. cbv zeta. rewrite Hrad.
  replace (rho * rho - 0 * 0) with (rho * rho) by ring.
  rewrite sqrt_square by lra.
  replace (rho / rho) with 1 by (field; lra).
  rewrite lit_1_0. unfold Rdiv at 1. rewrite Rinv_1, Rmult_1_r, Rmult_1_l.
  reflexivity.
Qed.

Lemma rho_integrand_on_axis_witness :
  rho_integrand 0.5 {| sd_erg := 2; sd_rad := 0; sd_r_max := 1;
                       sd_s := unit_model; sd_integrand := Gamma_P_Primakoff |}
  = gsl_pow_2 (0.5 * 2 / pi) * 1.
Proof.
  apply (rho_integrand_on_axis 0.5
           {| sd_erg := 2; sd_rad := 0; sd_r_max := 1; sd_s := unit_model;
              sd_integrand := Gamma_P_Primakoff |}).
  - reflexivity.
  - lra.
Defined.

(** * Further properties of the windowed integrator over a table *)

Lemma filter_none (P : R -> Prop) `{!forall x, Decision (P x)} (l : list R) :
  Forall (fun x => ~ P x) l -> filter P l = [].
Proof.
  induction 1 as [| x l Hx _ IH]; [reflexivity | ].
  rewrite filter_cons. destruct (decide (P x)); [contradiction | exact IH].
Qed.

Lemma filter_every (P : R -> Prop) `{!forall x, Decision (P x)} (l : list R) :
  Forall P l -> filter P l = l.
Proof.
  induction 1 as [| x l Hx _ IH]; [reflexivity | ].
  rewrite filter_cons. destruct (decide (P x)); [now rewrite IH | contradiction].
Qed.

(** X7.  Whatever the window, the break points handed to the quadrature
    start at erg_min and end at erg_max, and there are at least 2 and at
    most 34 of them. *)
Theorem relevant_peaks_shape (erg_min erg_max : R) :
  head (relevant_peaks erg_min erg_max) = Some erg_min
  /\ last (relevant_peaks erg_min erg_max) = Some erg_max
  /\ (2 <= length (relevant_peaks erg_min erg_max) <= 34)%nat.
Proof.
  rewrite relevant_peaks_filter. split; [reflexivity | split ].
  - rewrite app_comm_cons. apply last_snoc.
  - simpl. rewrite length_app. simpl.
    pose proof (length_filter (fun p => erg_min < p /\ p < erg_max) all_peaks) as Hle.
    change (length all_peaks) with 32%nat in Hle. lia.
Qed.

(** X8.  A window that the range check accepts is not checked for its
    orientation: with erg_max <= erg_min and the electron-interaction flag
    set, no line is inserted and the quadrature is called on the two break
    points erg_min, erg_max in that order. *)
Theorem integrated_flux_from_file_reversed_window (K : Constants) (gsl : GSL)
    (OneDInterpolator_ctor : string -> OneDInterpolator)
    (erg_min erg_max : R) (spectral_flux_file : string) :
  let spectral_flux := OneDInterpolator_ctor spectral_flux_file in
  lower spectral_flux <= erg_min ->
  erg_max <= upper spectral_flux ->
  erg_max <= erg_min ->
  let call :=
    gsl_integration_qagp (interpolate spectral_flux) [erg_min; erg_max]
      (abs_prec2 K) (rel_prec2 K) (int_space_size K) in
  integrated_flux_from_file K gsl OneDInterpolator_ctor erg_min erg_max
    spectral_flux_file true
  = ([call], Ok (fst (gsl call))).
Proof.
  cbv zeta. intros Hlo Hhi Hrev.
  unfold integrated_flux_from_file. cbv zeta.
  rewrite range_check_false by (unfold out_of_range; lra).
  rewrite relevant_peaks_filter, filter_none; [reflexivity | ].
  apply Forall_forall. intros x _. lra.
Qed.

Lemma integrated_flux_from_file_reversed_window_witness :
  integrated_flux_from_file unit_constants unit_gsl unit_table 3 2 "table" true
  = ([gsl_integration_qagp (fun _ => 1) [3; 2] 0 1 1000], Ok 1).
Proof.
  apply (integrated_flux_from_file_reversed_window unit_constants unit_gsl
           unit_table 3 2 "table"); simpl; lra.
Defined.

(** X9.  A window that reaches below the first line (0.653029) and beyond
    the last (7.76785) is split at every one of the 32 lines. *)
Theorem relevant_peaks_all (erg_min erg_max : R) :
  erg_min < 0.653029 ->
  7.76785 < erg_max ->
  relevant_peaks erg_min erg_max = erg_min :: all_peaks ++ [erg_max].
Proof.
  intros Hlo Hhi. rewrite relevant_peaks_filter, filter_every; [reflexivity | ].
  unfold all_peaks. repeat (constructor; [lra | ]). constructor.
Qed.

Lemma relevant_peaks_all_witness :
  relevant_peaks 0.5 8 = 0.5 :: all_peaks ++ [8].
Proof.
  apply (relevant_peaks_all 0.5 8); lra.
Defined.

(** * Further properties of the Monte-Carlo generator *)

(** X10.  Every r_max at or above 1 gives the generator of r_max = 1. *)
Theorem AxionMCGenerator_r_max_saturates (K : Constants) (gsl : GSL)
    (init : AxionMCGenerator -> result unit)
    (s : SolarModel) (process : SolarModel -> R -> R -> R)
    (omega_min omega_max omega_delta r_max : R) :
  1 <= r_max ->
  AxionMCGenerator_ctor K gsl init s process omega_min omega_max omega_delta r_max
  = AxionMCGenerator_ctor K gsl init s process omega_min omega_max omega_delta 1.
Proof.
  intros H. unfold AxionMCGenerator_ctor, mc_spectrum.
  destruct (decide (r_max < 1.0)) as [Hlt | _]; [lra | ].
  destruct (decide (1 < 1.0)) as [Hlt | _]; [lra | ].
  reflexivity.
Qed.

Lemma AxionMCGenerator_r_max_saturates_witness :
  AxionMCGenerator_ctor unit_constants unit_gsl init_ready unit_model Gamma_P_Primakoff
    0 3 1 5
  = AxionMCGenerator_ctor unit_constants unit_gsl init_ready unit_model Gamma_P_Primakoff
      0 3 1 1.
Proof.
  apply (AxionMCGenerator_r_max_saturates unit_constants unit_gsl init_ready
           unit_model
           Gamma_P_Primakoff 0 3 1 5).
  lra.
Defined.




(** X12.  An energy range that runs backwards by at least one step (and by
    no more than 2^31 steps) makes the grid size a negative [int], and the
    constructor fails in the allocation of the grid. *)
Theorem AxionMCGenerator_reversed_range (K : Constants) (gsl : GSL)
    (init : AxionMCGenerator -> result unit)
    (s : SolarModel) (process : SolarModel -> R -> R -> R)
    (omega_min omega_max omega_delta r_max : R) :
  -2147483648 <= (omega_max - omega_min) / omega_delta ->
  (omega_max - omega_min) / omega_delta <= -1 ->
  AxionMCGenerator_ctor K gsl init s process omega_min omega_max omega_delta r_max
  = Fail LengthError.
Proof.
  intros Hlo Hhi.
  unfold AxionMCGenerator_ctor, energy_grid, double_to_int, vector_of_size.
  cbv zeta.
  set (q := (omega_max - omega_min) / omega_delta) in *.
  assert (Ht : trunc q = Zceil q).
  { unfold trunc. destruct (decide (0 <= q)); [lra | reflexivity]. }
  pose proof (Zceil_bound q) as [Hc1 Hc2].
  assert (Hneg : (Zceil q <= -1)%Z).
  { assert (H0 : IZR (Zceil q) < IZR 0) by lra. apply lt_IZR in H0. lia. }
  assert (Hmin : (INT_MIN <= Zceil q)%Z).
  { unfold INT_MIN. apply le_IZR. lra. }
  rewrite Ht.
  rewrite (bool_decide_eq_true_2 _ Hmin).
  rewrite (bool_decide_eq_true_2 (Zceil q <= INT_MAX)%Z) by (unfold INT_MAX; lia).
  simpl. rewrite (bool_decide_eq_true_2 (Zceil q < 0)%Z) by lia.
  reflexivity.
Qed.

Lemma AxionMCGenerator_reversed_range_witness :
  AxionMCGenerator_ctor unit_constants unit_gsl init_ready unit_model Gamma_P_Primakoff
    3 0 1 1
  = Fail LengthError.
Proof.
  apply (AxionMCGenerator_reversed_range unit_constants unit_gsl init_ready
           unit_model
           Gamma_P_Primakoff 3 0 1 1); lra.
Defined.

(** X13.  The flux at the first grid point does not enter the cumulative
    table: two spectra that differ in their first entry only give the same
    table and the same total. *)
Theorem cumulate_ignores_first (omega_delta f0 f0' : R) (fs : list R) :
  cumulate omega_delta (Z.of_nat (length (f0 :: fs))) (f0 :: fs)
  = cumulate omega_delta (Z.of_nat (length (f0' :: fs))) (f0' :: fs).
Proof.
  rewrite !cumulate_running. reflexivity.
Qed.

Lemma final_norm_compound (omega_delta : R) (fs : list R) :
  forall norm,
    final_norm omega_delta norm fs
    = norm * (1 + 0.5 * omega_delta) ^ length fs
      + compound_sum (0.5 * omega_delta) fs.
Proof.
  induction fs as [| f fs IH]; intros norm.
  - simpl. unfold final_norm. simpl. lra.
  - rewrite final_norm_cons, IH. simpl.
    generalize ((1 + 0.5 * omega_delta) ^ length fs)
      (compound_sum (0.5 * omega_delta) fs).
    intros c t. literals. ring.
Qed.

(** X14.  The total the constructor stores is not the trapezoid sum of the
    spectrum: the loop reads back the entry it has just overwritten, so with
    h = 0.5*omega_delta the total of a spectrum f_0, ..., f_m is the sum over
    k >= 1 of h * f_k * (1 + h)^(m - k). *)
Theorem cumulate_total (omega_delta f0 : R) (fs : list R) :
  exists table,
    cumulate omega_delta (Z.of_nat (length (f0 :: fs))) (f0 :: fs)
    = Ok (table, compound_sum (0.5 * omega_delta) fs).
Proof.
  rewrite cumulate_running, final_norm_compound.
  eexists. f_equal. f_equal. ring.
Qed.

Lemma running_length (omega_delta : R) (fs : list R) :
  forall norm, length (running omega_delta norm fs) = length fs.
Proof.
  induction fs as [| f fs IH]; intros norm; simpl; [reflexivity | now rewrite IH].
Qed.

(** X15.  A constructed generator has at least one grid point, and its
    cumulative table has one entry per grid point. *)
Theorem AxionMCGenerator_lengths (K : Constants) (gsl : GSL)
    (init : AxionMCGenerator -> result unit) (s : SolarModel)
    (process : SolarModel -> R -> R -> R)
    (omega_min omega_max omega_delta r_max : R) (g : AxionMCGenerator) :
  AxionMCGenerator_ctor K gsl init s process omega_min omega_max omega_delta r_max = Ok g ->
  (1 <= length (inv_cdf_data_erg g))%nat
  /\ length (inv_cdf_data_x g) = length (inv_cdf_data_erg g).
Proof.
  intros Hg.
  destruct (AxionMCGenerator_ctor_inv _ _ _ _ _ _ _ _ _ _ Hg) as (f0 & fs & Hs & _ & Hx).
  pose proof (mc_spectrum_length K gsl s process r_max (inv_cdf_data_erg g)) as Hlen.
  rewrite Hs in Hlen. simpl in Hlen.
  rewrite Hx, length_fmap. simpl. rewrite running_length. lia.
Qed.

Lemma AxionMCGenerator_lengths_witness :
  exists g,
    AxionMCGenerator_ctor unit_constants unit_gsl init_ready unit_model Gamma_P_Primakoff
      0 3 1 1 = Ok g
    /\ (1 <= length (inv_cdf_data_erg g))%nat
    /\ length (inv_cdf_data_x g) = length (inv_cdf_data_erg g).
Proof.
  destruct sample_generator as (g & Hg & _).
  exists g. split; [exact Hg | ].
  apply (AxionMCGenerator_lengths unit_constants unit_gsl init_ready
           unit_model
           Gamma_P_Primakoff 0 3 1 1 g Hg).
Defined.

(** X18.  Under the conditions of a valid table (positive step, spectrum
    not negative, positive total) every entry of the stored cumulative
    table lies between 0 and 1. *)
Theorem inv_cdf_data_x_unit_interval (K : Constants) (gsl : GSL)
    (init : AxionMCGenerator -> result unit)
    (s : SolarModel) (process : SolarModel -> R -> R -> R)
    (omega_min omega_max omega_delta r_max : R) (g : AxionMCGenerator) :
  AxionMCGenerator_ctor K gsl init s process omega_min omega_max omega_delta r_max = Ok g ->
  omega_delta > 0 ->
  Forall (fun f => 0 <= f) (mc_spectrum K gsl s process r_max (inv_cdf_data_erg g)) ->
  integrated_norm g > 0 ->
  Forall (fun x => 0 <= x <= 1) (inv_cdf_data_x g).
Proof.
  intros Hg Hd Hflux Hnorm.
  destruct (AxionMCGenerator_ctor_inv _ _ _ _ _ _ _ _ _ _ Hg) as (f0 & fs & Hs & HN & Hx).
  rewrite Hs in Hflux. apply Forall_cons_1 in Hflux as [_ Hfs].
  assert (Hsorted : Sorted Rle (inv_cdf_data_x g)).
  { rewrite Hx. apply Sorted_Rle_scale; [lra | ].
    apply running_sorted; [lra | lra | exact Hfs]. }
  assert (Hfirst : inv_cdf_data_x g !! 0%nat = Some 0).
  { rewrite Hx. simpl. f_equal. unfold Rdiv. apply Rmult_0_l. }
  assert (Hlast : last (inv_cdf_data_x g) = Some 1).
  { rewrite Hx, fmap_last, last_running, <- HN. simpl. f_equal.
    apply Rdiv_diag. lra. }
  rewrite last_lookup in Hlast.
  apply Forall_lookup. intros i x Hi.
  pose proof (lookup_lt_Some _ _ _ Hi) as Hlt. split.
  - apply (Sorted_Rle_lookup _ Hsorted 0 i 0 x); [lia | exact Hfirst | exact Hi].
  - apply (Sorted_Rle_lookup _ Hsorted i (Init.Nat.pred (length (inv_cdf_data_x g))) x 1);
      [lia | exact Hi | exact Hlast].
Qed.

Lemma inv_cdf_data_x_unit_interval_witness :
  exists g,
    AxionMCGenerator_ctor unit_constants unit_gsl init_ready unit_model Gamma_P_Primakoff
      0 3 1 1 = Ok g
    /\ Forall (fun x => 0 <= x <= 1) (inv_cdf_data_x g).
Proof.
  destruct sample_generator as (g & Hg & Hflux & Hnorm).
  exists g. split; [exact Hg | ].
  apply (inv_cdf_data_x_unit_interval unit_constants unit_gsl init_ready
           unit_model
           Gamma_P_Primakoff 0 3 1 1 g Hg); [lra | exact Hflux | exact Hnorm].
Defined.
